(** * Int8 block quantization of module weights (msh/utils/quant.py)

    A shallow embedding of [_quantize_weight_int8],
    [_unquantize_weight_int8], the [_QuantizedParam] handle, the
    orchestrator [quantize_module_int8_] and [get_size_dtype_device].

    Numbers are modelled as exact rationals [Q]: the rounding of the
    floating point kernels is not modelled, so the values a float
    computation gives here are its exact counterparts, and the theorems
    below are about shapes, dtypes, attributes, control flow and the
    wrap-around of int8 arithmetic, not about float precision.  The
    arithmetic of int8 tensors is modelled as torch does it: [int8 - int8]
    wraps modulo [2 ^ 8], and a true division of an int8 tensor, or a mix
    of an int8 and a float32 tensor, gives float32.  Weight tensors are
    2-D (rows along dim 0, the [aminmax] reduction along dim 1), the
    shape of the linear layers the module quantizes. *)

From Stdlib Require Import QArith Qround Qminmax Qabs Lqa ZArith Lia.
From stdpp Require Import base list gmap strings.

Open Scope Q_scope.

(* ------------------------------------------------------------------ *)
(** ** Tensors *)

Inductive dtype := Float32 | Float16 | BFloat16 | Int8.

(** [dtype.itemsize] *)
Definition itemsize (d : dtype) : nat :=
  match d with Float32 => 4 | Float16 => 2 | BFloat16 => 2 | Int8 => 1 end%nat.

(** A dense 2-D tensor: its size [(t_rows, t_cols)] and its rows. *)
Record Tensor := mkTensor {
  t_rows : nat;
  t_cols : nat;
  t_data : list (list Q);
  t_dtype : dtype;
  t_device : nat
}.


(** [tensor.size()] and [tensor.numel()] *)
Definition t_size (t : Tensor) : nat * nat := (t_rows t, t_cols t).
Definition numel (t : Tensor) : nat := (t_rows t * t_cols t)%nat.

(** Element [t[i][j]]. *)
Definition entry (t : Tensor) (i j : nat) : option Q :=
  match nth_error (t_data t) i with
  | Some r => nth_error r j
  | None => None
  end.

(** [x.view(size)] of a flat buffer into [n] rows of [m] columns. *)
Fixpoint chunks (n m : nat) (l : list Q) : list (list Q) :=
  match n with
  | O => []
  | S n' => firstn m l :: chunks n' m (skipn m l)
  end.

(* ------------------------------------------------------------------ *)
(** ** The affine block quantizer *)

(** [torch.round]: round half to even. *)
Definition round_half_even (q : Q) : Z :=
  let f := Qfloor q in
  match Qcompare (q - inject_Z f) (1 # 2) with
  | Lt => f
  | Gt => (f + 1)%Z
  | Eq => if Z.even f then f else (f + 1)%Z
  end.

(** [.clamp(mn_val, mx_val)] with [mn_val = -128], [mx_val = 127]. *)
Definition clamp_int8 (z : Z) : Z := Z.min 127 (Z.max (-128) z).

(** [weight.aminmax(dim=1)] on one row (the row is non-empty). *)
Definition row_min (r : list Q) : Q := fold_left Qmin (tl r) (hd 0 r).
Definition row_max (r : list Q) : Q := fold_left Qmax (tl r) (hd 0 r).

(** Two's complement wrap-around of an int8 result. *)
Definition wrap_int8 (z : Z) : Z := ((z + 128) mod 256 - 128)%Z.

(** [mx - mn] on two tensors of dtype [d]: int8 subtraction wraps (the
    values of an int8 tensor are integers); float subtraction is exact
    here. *)
Definition sub_dtype (d : dtype) (mx mn : Q) : Q :=
  match d with
  | Int8 => inject_Z (wrap_int8 (Qfloor mx - Qfloor mn))
  | _ => mx - mn
  end.

(** The dtype of [(mx - mn) / (mx_val - mn_val)] and of
    [torch.where(invalid, zero, mx - scale * mx_val)] for a weight of
    dtype [d]: an int8 tensor divided by an int is float32; a float
    dtype is kept. *)
Definition float_dtype (d : dtype) : dtype :=
  match d with Int8 => Float32 | _ => d end.

(** One row of [_quantize_weight_int8] on a weight of dtype [d]: its
    codes, scale and mean. *)
Definition quantize_row (d : dtype) (r : list Q) : list Z * Q * Q :=
  let mn := row_min r in
  let mx := row_max r in
  let scale := sub_dtype d mx mn / (127 - (-128)) in
  let invalid := Qeq_bool scale 0 in
  let mean := if invalid then 0 else mx - scale * 127 in
  let q8 := map (fun x => if invalid then 0%Z
                          else clamp_int8 (round_half_even ((x - mean) / scale))) r in
  (q8, scale, mean).

(** [int(math.ceil(n / block_size))] *)
Definition ceil_div (n b : nat) : nat := ((n + b - 1) / b)%nat.

(** [_quantize_weight_int8 weight block_size].  [None] is a raised error:
    [ZeroDivisionError] for [block_size = 0]; the slice assignment into
    the [(block_size, block_size)] buffer when the element count is not a
    multiple of [block_size] and exceeds [block_size * block_size];
    [aminmax] over an empty dim 1.  The padded buffer is otherwise never
    used: the source rebinds [weight = weight], so min/max and the codes
    are computed on the rows of the weight as it is. *)
Definition _quantize_weight_int8 (weight : Tensor) (block_size : nat)
    : option (Tensor * Tensor * Tensor) :=
  if decide (block_size = 0%nat) then None else
  let n := numel weight in
  let blocks := ceil_div n block_size in
  if decide (n <> (blocks * block_size)%nat /\ (block_size * block_size < n)%nat)
  then None
  else if decide (t_cols weight = 0%nat) then None
  else
    let rows := map (quantize_row (t_dtype weight)) (t_data weight) in
    let q8 := mkTensor (t_rows weight) (t_cols weight)
                (map (fun '(c, _, _) => map inject_Z c) rows) Int8 (t_device weight) in
    let scale := mkTensor (t_rows weight) 1
                (map (fun '(_, s, _) => [s]) rows) (float_dtype (t_dtype weight))
                (t_device weight) in
    let mean := mkTensor (t_rows weight) 1
                (map (fun '(_, _, m) => [m]) rows) (float_dtype (t_dtype weight))
                (t_device weight) in
    Some (q8, scale, mean).

(** The per-row value of a [(n, 1)] tensor broadcast over [n] rows. *)
Definition bcast_col (n : nat) (t : Tensor) : option (list Q) :=
  if decide (t_cols t = 1%nat) then
    let col := map (hd 0) (t_data t) in
    if decide (t_rows t = n) then Some col
    else if decide (t_rows t = 1%nat) then Some (repeat (hd 0 col) n)
    else None
  else None.

(** [_unquantize_weight_int8 q8 scale mean size]:
    [w = q8.to(mean.dtype)]; [torch.addcmul(mean, w, scale, out=w)], i.e.
    [w = mean + w * scale] broadcast per row; then
    [w.view(-1)[:size.numel()].view(size)].  Broadcasts other than a
    per-row column are reported as errors. *)
Definition _unquantize_weight_int8 (q8 scale mean : Tensor) (size : nat * nat)
    : option Tensor :=
  match bcast_col (t_rows q8) scale, bcast_col (t_rows q8) mean with
  | Some sc, Some mu =>
      let w := zip_with (fun r '(s, m) => map (fun c => m + c * s) r)
                 (t_data q8) (zip sc mu) in
      let flat := firstn (size.1 * size.2) (concat w) in
      if decide (length flat = (size.1 * size.2)%nat) then
        Some (mkTensor size.1 size.2 (chunks size.1 size.2 flat)
                (t_dtype mean) (t_device mean))
      else None
  | _, _ => None
  end.


(* ------------------------------------------------------------------ *)
(** ** Modules, handles and registries *)

(** The exceptions the code can raise. *)
Inductive err :=
  | ModuleGone      (** [RuntimeError("Module is gone but we are still here.")] *)
  | AttributeError  (** [getattr] / [delattr] of a missing attribute *)
  | TorchError      (** an error raised inside a torch kernel *)
  | ForwardError.   (** an error raised by a module's own [forward] *)

(** [_QuantizedParam]: a weak reference to the owning module (its
    identity), the attribute name and the original size. *)
Record Handle := mkHandle {
  h_module : nat;
  h_name : string;
  h_size : nat * nat
}.

(** An [nn.Module]: its parameters [_parameters] (a dict, in insertion
    order), its children [_modules], and the forward pre-hooks and
    forward hooks installed by [quantize_module_int8_], each one closing
    over its [params] list. *)
Record Module := mkModule {
  m_params : list (string * Tensor);
  m_children : list nat;
  m_pre_hooks : list (list Handle);
  m_post_hooks : list (list Handle)
}.

(** The live modules by identity, [_params_registry] and
    [_quantized_registry].  A destroyed module is absent from all three
    (weak references and weak-keyed registries). *)
Record State := mkState {
  st_modules : gmap nat Module;
  st_params_registry : gmap nat (list (string * Handle));
  st_quantized_registry : gset nat
}.

(** Python dicts keyed by strings, as association lists in insertion order. *)
Fixpoint dict_lookup {V} (k : string) (d : list (string * V)) : option V :=
  match d with
  | [] => None
  | (k', v) :: d' => if decide (k = k') then Some v else dict_lookup k d'
  end.

Fixpoint dict_set {V} (k : string) (v : V) (d : list (string * V)) : list (string * V) :=
  match d with
  | [] => [(k, v)]
  | (k', v') :: d' => if decide (k = k') then (k, v) :: d' else (k', v') :: dict_set k v d'
  end.

Fixpoint dict_del {V} (k : string) (d : list (string * V)) : list (string * V) :=
  match d with
  | [] => []
  | (k', v') :: d' => if decide (k = k') then d' else (k', v') :: dict_del k d'
  end.

(** State and exceptions: a raised exception keeps the state reached. *)
Definition M (A : Type) : Type := State -> State * (err + A).

Definition mret {A} (a : A) : M A := fun s => (s, inr a).
Definition mthrow {A} (e : err) : M A := fun s => (s, inl e).
Definition mbind {A B} (c : M A) (f : A -> M B) : M B :=
  fun s => match c s with
           | (s', inl e) => (s', inl e)
           | (s', inr a) => f a s'
           end.

Notation "'let*' x ':=' c1 'in' c2" := (mbind c1 (fun x => c2))
  (at level 200, x name, c1 at level 100, c2 at level 200).

(** [for x in xs: f(x)] *)
Fixpoint mfor {A} (xs : list A) (f : A -> M unit) : M unit :=
  match xs with
  | [] => mret tt
  | x :: xs' => let* _u := f x in mfor xs' f
  end.

Definition get_module (id : nat) : M Module :=
  fun s => match st_modules s !! id with
           | Some m => (s, inr m)
           | None => (s, inl ModuleGone)
           end.

Definition put_module (id : nat) (m : Module) : M unit :=
  fun s => (mkState (<[id := m]> (st_modules s)) (st_params_registry s)
                    (st_quantized_registry s), inr tt).

(** [getattr(module, name)], [hasattr], [setattr] of an [nn.Parameter],
    [delattr], on the parameters of a module. *)
Definition getattr (id : nat) (name : string) : M Tensor :=
  let* m := get_module id in
  match dict_lookup name (m_params m) with
  | Some t => mret t
  | None => mthrow AttributeError
  end.

Definition hasattr (id : nat) (name : string) : M bool :=
  let* m := get_module id in
  mret (match dict_lookup name (m_params m) with Some _ => true | None => false end).

Definition setattr (id : nat) (name : string) (t : Tensor) : M unit :=
  let* m := get_module id in
  put_module id (mkModule (dict_set name t (m_params m)) (m_children m)
                          (m_pre_hooks m) (m_post_hooks m)).

Definition delattr (id : nat) (name : string) : M unit :=
  let* m := get_module id in
  match dict_lookup name (m_params m) with
  | Some _ => put_module id (mkModule (dict_del name (m_params m)) (m_children m)
                                      (m_pre_hooks m) (m_post_hooks m))
  | None => mthrow AttributeError
  end.

(** [_QuantizedParam.module]: dereference the weak reference. *)
Definition h_mod (h : Handle) : M nat :=
  fun s => match st_modules s !! h_module h with
           | Some _ => (s, inr (h_module h))
           | None => (s, inl ModuleGone)
           end.

Definition h_mean (h : Handle) : M Tensor :=
  let* m := h_mod h in getattr m (h_name h +:+ "_mean").
Definition h_scale (h : Handle) : M Tensor :=
  let* m := h_mod h in getattr m (h_name h +:+ "_scale").
Definition h_q8 (h : Handle) : M Tensor :=
  let* m := h_mod h in getattr m (h_name h +:+ "_q8").
Definition h_dtype (h : Handle) : M dtype :=
  let* mu := h_mean h in mret (t_dtype mu).
Definition h_device (h : Handle) : M nat :=
  let* mu := h_mean h in mret (t_device mu).

Definition h_quantize_ (block_size : nat) (h : Handle) : M unit :=
  let* m := h_mod h in
  let* w := getattr m (h_name h) in
  match _quantize_weight_int8 w block_size with
  | None => mthrow TorchError
  | Some (q8, scale, mean) =>
      let* m := h_mod h in
      let* _u := setattr m (h_name h +:+ "_q8") q8 in
      let* m := h_mod h in
      let* _u := setattr m (h_name h +:+ "_scale") scale in
      let* m := h_mod h in
      setattr m (h_name h +:+ "_mean") mean
  end.

Definition h_unquantized_value (h : Handle) : M Tensor :=
  let* q8 := h_q8 h in
  let* scale := h_scale h in
  let* mean := h_mean h in
  match _unquantize_weight_int8 q8 scale mean (h_size h) with
  | Some w => mret w
  | None => mthrow TorchError
  end.

Definition h_unquantize_ (h : Handle) : M unit :=
  let* m := h_mod h in
  let* present := hasattr m (h_name h) in
  if present then mret tt
  else
    let* w := h_unquantized_value h in
    let* m := h_mod h in
    setattr m (h_name h) w.

Definition h_flush_unquantized_ (h : Handle) : M unit :=
  let* m := h_mod h in delattr m (h_name h).

(* ------------------------------------------------------------------ *)
(** ** The orchestrator [quantize_module_int8_] *)

(** [module.modules()]: the module and its descendants in pre-order, each
    distinct module once ([named_modules] with its [memo] set).  The fuel
    bounds the depth, which is at most the number of live modules. *)
Fixpoint modules_go (fuel : nat) (s : State) (id : nat) (memo : list nat) : list nat :=
  match fuel with
  | O => memo
  | S fuel' =>
      if decide (id ∈ memo) then memo
      else
        let memo' := memo ++ [id] in
        match st_modules s !! id with
        | Some m => fold_left (fun acc c => modules_go fuel' s c acc) (m_children m) memo'
        | None => memo'
        end
  end.

Definition modules (id : nat) : M (list nat) :=
  fun s => (s, inr (modules_go (S (size (st_modules s))) s id [])).

(** [child.named_parameters(recurse=False)], copied with [list(...)]. *)
Definition named_parameters (id : nat) : M (list (string * Tensor)) :=
  let* m := get_module id in mret (m_params m).

Definition params_registry_get (id : nat) : M (option (list (string * Handle))) :=
  fun s => (s, inr (st_params_registry s !! id)).

Definition params_registry_set (id : nat) (d : list (string * Handle)) : M unit :=
  fun s => (mkState (st_modules s) (<[id := d]> (st_params_registry s))
                    (st_quantized_registry s), inr tt).

Definition quantized_registry_mem (id : nat) : M bool :=
  fun s => (s, inr (bool_decide (id ∈ st_quantized_registry s))).

Definition quantized_registry_add (id : nat) : M unit :=
  fun s => (mkState (st_modules s) (st_params_registry s)
                    ({[id]} ∪ st_quantized_registry s), inr tt).

(** [size = weight.numel() * weight.dtype.itemsize / 1e6] *)
Definition size_mb (w : Tensor) : Q :=
  inject_Z (Z.of_nat (numel w * itemsize (t_dtype w))) / 1000000.

(** The loop over the parameters of a newly visited [child]: it returns
    the extended [params] list and [child_params].  [param.quantize_()]
    is called without [block_size], so with its default 256. *)
Fixpoint process_params (child : nat) (min_size_mb : Q) (ps : list (string * Tensor))
    (params : list Handle) (child_params : list (string * Handle))
    : M (list Handle * list (string * Handle)) :=
  match ps with
  | [] => mret (params, child_params)
  | (name, weight) :: rest =>
      if Qlt_le_dec (size_mb weight) min_size_mb
      then process_params child min_size_mb rest params child_params
      else
        let param := mkHandle child name (t_size weight) in
        let* _u := h_quantize_ 256 param in
        let* _u := h_flush_unquantized_ param in
        process_params child min_size_mb rest (params ++ [param])
                       (dict_set (h_name param) param child_params)
  end.

(** The loop [for child in module.modules()]. *)
Fixpoint traverse (min_size_mb : Q) (children : list nat) (seen : list nat)
    (params : list Handle) : M (list Handle) :=
  match children with
  | [] => mret params
  | child :: rest =>
      if decide (child ∈ seen) then traverse min_size_mb rest seen params
      else
        let* reg := params_registry_get child in
        match reg with
        | Some child_reg =>
            (* Someone else already quantized this module. *)
            traverse min_size_mb rest seen (params ++ map snd child_reg)
        | None =>
            let seen := seen ++ [child] in
            let* ps := named_parameters child in
            let* res := process_params child min_size_mb ps params [] in
            let* _u := params_registry_set child res.2 in
            traverse min_size_mb rest seen res.1
        end
  end.

Definition register_hooks (id : nat) (params : list Handle) : M unit :=
  let* m := get_module id in
  put_module id (mkModule (m_params m) (m_children m)
                          (m_pre_hooks m ++ [params]) (m_post_hooks m ++ [params])).

(** [quantize_module_int8_ module min_size_mb block_size]; the result is
    [None] for Python's [None] and [Some module] for the module.  The
    [block_size] argument is not used by the source. *)
Definition quantize_module_int8_ (module : nat) (min_size_mb : Q) (block_size : nat)
    : M (option nat) :=
  let* done_ := quantized_registry_mem module in
  if done_ then mret None
  else
    let* mods := modules module in
    let* params := traverse min_size_mb mods [] [] in
    let* _u := register_hooks module params in
    let* _u := quantized_registry_add module in
    mret (Some module).

(** [pre_hook] and [post_hook] of one orchestration. *)
Definition pre_hook (params : list Handle) : M unit := mfor params h_unquantize_.
Definition post_hook (params : list Handle) : M unit := mfor params h_flush_unquantized_.

(** [module(...)] ([nn.Module._call_impl]): the forward pre-hooks, the
    module's [forward], then the forward hooks; an exception skips what
    follows it. *)
Definition call_module (forward : M unit) (id : nat) : M unit :=
  let* m := get_module id in
  let* _u := mfor (m_pre_hooks m) pre_hook in
  let* _u := forward in
  let* m := get_module id in
  mfor (m_post_hooks m) post_hook.

(** [get_size_dtype_device module name]. *)
Definition get_size_dtype_device (module : nat) (name : string)
    : M ((nat * nat) * dtype * nat) :=
  fun s =>
    match getattr module name s with
    | (s', inr tensor) => (s', inr (t_size tensor, t_dtype tensor, t_device tensor))
    | (s', inl AttributeError) =>
        match st_params_registry s' !! module with
        | Some params =>
            match dict_lookup name params with
            | Some param =>
                (let* dt := h_dtype param in
                 let* dev := h_device param in
                 mret (h_size param, dt, dev)) s'
            | None => (s', inl AttributeError)
            end
        | None => (s', inl AttributeError)
        end
    | (s', inl e) => (s', inl e)
    end.

(* ------------------------------------------------------------------ *)
(** ** Predicates on states used by the proofs *)

(** The structure of a module that attribute updates leave alone. *)
Definition mod_shape (o : option Module) : option (list nat * list (list Handle) * list (list Handle)) :=
  (fun m => (m_children m, m_pre_hooks m, m_post_hooks m)) <$> o.

(** [op] changes only the parameters of module [c]. *)
Definition frame {A} (c : nat) (op : M A) : Prop :=
  forall s s' r, op s = (s', r) ->
    st_params_registry s' = st_params_registry s /\
    st_quantized_registry s' = st_quantized_registry s /\
    (forall k, k <> c -> st_modules s' !! k = st_modules s !! k) /\
    (forall k, mod_shape (st_modules s' !! k) = mod_shape (st_modules s !! k)).

(** A parameter dict has distinct names. *)
Definition module_wf (s : State) : Prop :=
  forall k m, st_modules s !! k = Some m -> NoDup (map fst (m_params m)).



(** [op] keeps every parameter dict free of duplicate names. *)
Definition keeps_wf {A} (op : M A) : Prop :=
  forall s s' r, module_wf s -> op s = (s', r) -> module_wf s'.

(** The parameter [k] of module [c]: [None] if the module is gone,
    [Some None] if it has no such parameter. *)
Definition attr (c : nat) (k : string) (s : State) : option (option Tensor) :=
  (fun m => dict_lookup k (m_params m)) <$> st_modules s !! c.

(** [op] leaves the parameter [k] of module [c] as it is. *)
Definition keeps_attr {A} (c : nat) (k : string) (op : M A) : Prop :=
  forall s s' r, op s = (s', r) -> attr c k s' = attr c k s.

(** The parameter names of module [c] are distinct. *)
Definition params_nodup (c : nat) (s : State) : Prop :=
  forall m, st_modules s !! c = Some m -> NoDup (map fst (m_params m)).

(** The suffixes of the quantized triple's attributes. *)
Definition triple_suffixes : list string := ["_q8"; "_scale"; "_mean"].

(** The weight [w] named [X] of module [c] is in quantized form: the
    plain attribute is gone and the triple holds the quantizer's output. *)
Definition quantized_form (c : nat) (X : string) (w : Tensor) (s : State) : Prop :=
  attr c X s = Some None /\
  exists q8 sc mu, _quantize_weight_int8 w 256 = Some (q8, sc, mu) /\
    attr c (X +:+ "_q8") s = Some (Some q8) /\
    attr c (X +:+ "_scale") s = Some (Some sc) /\
    attr c (X +:+ "_mean") s = Some (Some mu).

(** The triple of handle [h] is present and decodes to [w]. *)
Definition triple_decodes (h : Handle) (w : Tensor) (s : State) : Prop :=
  exists q8 sc mu,
    attr (h_module h) (h_name h +:+ "_q8") s = Some (Some q8) /\
    attr (h_module h) (h_name h +:+ "_scale") s = Some (Some sc) /\
    attr (h_module h) (h_name h +:+ "_mean") s = Some (Some mu) /\
    _unquantize_weight_int8 q8 sc mu (h_size h) = Some w.

(** The parameters [quantize_module_int8_] keeps: not
    [size < min_size_mb]. *)
Definition large (min_size_mb : Q) (p : string * Tensor) : bool :=
  if Qlt_le_dec (size_mb p.2) min_size_mb then false else true.

(** The identity of the attribute a handle stands for. *)
Definition hkey (h : Handle) : nat * string := (h_module h, h_name h).

(** A [(1024, 1024)] float32 weight of zeros, and a [(1, 3)] weight. *)
Definition W1024 : Tensor :=
  mkTensor 1024 1024 (repeat (repeat 0 1024) 1024) Float32 0.
Definition W13 : Tensor := mkTensor 1 3 [[1; 2; 3]] Float32 0.

(** A single module 0 with one [(1, 2)] float32 weight [w]. *)
Definition S0 : State :=
  mkState {[0%nat := mkModule [("w", mkTensor 1 2 [[0; 1]] Float32 0)] [] [] []]} ∅ ∅.

(** [S0] after [quantize_module_int8_(module0, 0, 256)], its module 0,
    and the handle on [w]; a handle on a module that does not exist. *)
Definition S0q : State := fst (quantize_module_int8_ 0 0 256 S0).
Definition M0q : Module :=
  match st_modules S0q !! 0%nat with Some m => m | None => mkModule [] [] [] [] end.
Definition H0w : Handle := mkHandle 0 "w" (1%nat, 2%nat).
Definition Hgone : Handle := mkHandle 5 "w" (1%nat, 2%nat).

(** A [(2, 3)] weight with one constant row. *)
Definition W23 : Tensor := mkTensor 2 3 [[1; 2; 4]; [5; 5; 5]] Float32 0.

(** Weights of 8 and 4 bytes. *)
Definition Wbig : Tensor := mkTensor 1 2 [[0; 1]] Float32 0.



(** Module 1, child of 0, orchestrated alone with [min_size_mb = 1]
    (its weight is skipped), then 0 orchestrated with [min_size_mb = 0]. *)
Definition Snested : State :=
  mkState {[0%nat := mkModule [] [1%nat] [] []; 1%nat := mkModule [("w", Wbig)] [] [] []]} ∅ ∅.

(* ------------------------------------------------------------------ *)
(** ** Further predicates and inputs *)

(** [op] leaves the state as it is, whether it returns or raises. *)
Definition readonly {A} (op : M A) : Prop := forall s s' r, op s = (s', r) -> s' = s.


(** [Snested] orchestrated from module 0, then module 1 dropped from the
    modules while the hooks of 0 still hold the handle on its weight. *)
Definition Snestedq : State := fst (quantize_module_int8_ 0 0 256 Snested).
Definition Sdropped : State :=
  mkState (delete 1%nat (st_modules Snestedq)) (st_params_registry Snestedq)
          (st_quantized_registry Snestedq).
Definition M0dropped : Module :=
  mkModule [] [1%nat] [[mkHandle 1 "w" (1%nat, 2%nat)]] [[mkHandle 1 "w" (1%nat, 2%nat)]].

(** A [(1, 65537)] weight: more than [256 * 256] elements, not a multiple
    of 256. *)
Definition Wodd : Tensor := mkTensor 1 (2 ^ 16 + 1) [repeat 0 (2 ^ 16 + 1)] Float32 0.
Definition Modd : Module := mkModule [("w", Wodd)] [] [] [].
Definition Sodd : State := mkState {[0%nat := Modd]} ∅ ∅.

(** Module 0 with children 1 and 2; the [(1, 0)] weight of 2 makes the
    quantizer raise after the weight of 1 is quantized. *)
Definition Wempty : Tensor := mkTensor 1 0 [[]] Float32 0.
Definition Spartial : State :=
  mkState {[0%nat := mkModule [] [1%nat; 2%nat] [] [];
            1%nat := mkModule [("w", Wbig)] [] [] [];
            2%nat := mkModule [("e", Wempty)] [] [] []]} ∅ ∅.


(** An int8 weight whose row spans the whole int8 range, and module 0
    holding it as its weight [w], before and after
    [quantize_module_int8_(module0, 0, 256)]. *)
Definition W8 : Tensor := mkTensor 1 2 [[-128; 127]] Int8 0.




(* ================================================================== *)
(** * Proofs *)

(** ** One quantized row *)


(** ** Flattening and viewing back *)




(** C1 (code_bug): for the int8 weight [W8 = [[-128, 127]]] the code
    computes [mx - mn] in int8, where [127 - (-128)] wraps to [-1].  The
    scale of the row is [-1/255], negative, and dequantizing the codes
    gives [127] for the element [-128]: an error of [255], more than half
    of [|scale|], let alone of [scale].  The decoded tensor is float32. *)
Theorem quantize_roundtrip_int8_wrap :
  exists q8 sc mu W' s x',
    _quantize_weight_int8 W8 256 = Some (q8, sc, mu) /\
    _unquantize_weight_int8 q8 sc mu (t_size W8) = Some W' /\
    entry W8 0 0 = Some (-128) /\
    entry sc 0 0 = Some s /\ s == - (1 # 255) /\
    entry W' 0 0 = Some x' /\ x' == 127 /\
    ~ (Qabs (x' - -128) <= Qabs s / 2) /\
    t_dtype W' = Float32.
Proof.
  eexists _, _, _, _, _, _.
  split; [reflexivity|]. split; [reflexivity|]. split; [reflexivity|].
  split; [reflexivity|]. split; [vm_compute; reflexivity|].
  split; [reflexivity|]. split; [vm_compute; reflexivity|].
  split; [apply Qlt_not_le; vm_compute; reflexivity|].
  reflexivity.
Qed.

(** ** Shape of the quantized triple *)

Lemma ceil_div_mul (k b : nat) : b <> 0%nat -> ceil_div (k * b) b = k.
Proof.
  intros Hb. unfold ceil_div. symmetry.
  apply (Nat.div_unique _ _ _ (b - 1)); lia.
Qed.

(** The codes keep the size of the weight itself, and scale and mean have
    one entry per row of the weight. *)
Lemma quantize_shape (W : Tensor) (bs k : nat) :
  bs <> 0%nat -> numel W = (k * bs)%nat -> t_cols W <> 0%nat ->
  exists q8 sc mu, _quantize_weight_int8 W bs = Some (q8, sc, mu) /\
    t_size q8 = t_size W /\ t_size sc = (t_rows W, 1%nat) /\ t_size mu = (t_rows W, 1%nat).
Proof.
  intros Hbs Hn Hc. unfold _quantize_weight_int8.
  rewrite decide_False by exact Hbs.
  rewrite Hn, ceil_div_mul by exact Hbs.
  rewrite decide_False by lia. rewrite decide_False by exact Hc.
  eexists _, _, _. split; [reflexivity|]. done.
Qed.

(** C2 (code_bug): quantizing a [(1024, 1024)] weight with block size 256
    gives codes of size [(1024, 1024)], not [(4096, 256)], and scale of
    size [(1024, 1)]; for the [(1, 3)] weight [W13] with block size 2 the
    codes hold 3 elements, not [ceil(3 / 2) * 2 = 4]. *)
Theorem quantize_codes_not_blocked :
  (exists q8 sc mu, _quantize_weight_int8 W1024 256 = Some (q8, sc, mu) /\
     t_size q8 = (1024%nat, 1024%nat) /\ t_size q8 <> (4096%nat, 256%nat) /\
     t_size sc = (1024%nat, 1%nat) /\ t_size mu = (1024%nat, 1%nat)) /\
  (exists q8 sc mu, _quantize_weight_int8 W13 2 = Some (q8, sc, mu) /\
     numel q8 = 3%nat /\ (ceil_div (numel W13) 2 * 2)%nat = 4%nat).
Proof.
  split.
  - destruct (quantize_shape W1024 256 4096) as (q8 & sc & mu & Hq & H1 & H2 & H3);
      [discriminate | unfold numel, W1024; cbn [t_rows t_cols]; lia
      | unfold W1024; cbn [t_cols]; discriminate |].
    exists q8, sc, mu. split; [exact Hq|]. rewrite H1, H2, H3.
    unfold t_size, W1024; cbn [t_rows t_cols].
    split; [reflexivity|]. split; [intros H; injection H; lia|]. split; reflexivity.
  - eexists _, _, _. split; [vm_compute; reflexivity|]. split; reflexivity.
Qed.

(** ** Monadic evaluation *)

Lemma mbind_inl {A B} (c : M A) (f : A -> M B) s s' e :
  c s = (s', inl e) -> mbind c f s = (s', inl e).
Proof. intros H. unfold mbind. by rewrite H. Qed.

Lemma mbind_inr {A B} (c : M A) (f : A -> M B) s s' a :
  c s = (s', inr a) -> mbind c f s = f a s'.
Proof. intros H. unfold mbind. by rewrite H. Qed.

Lemma mbind_inv {A B} (c : M A) (f : A -> M B) s s' b :
  mbind c f s = (s', inr b) -> exists s1 a, c s = (s1, inr a) /\ f a s1 = (s', inr b).
Proof.
  unfold mbind. destruct (c s) as [s1 [e|a]]; [discriminate|]. eauto.
Qed.

(** ** Idempotence of the orchestrator *)

Lemma quantize_module_registered (m : nat) (min : Q) (bs : nat) (s s1 : State) r :
  quantize_module_int8_ m min bs s = (s1, inr r) -> m ∈ st_quantized_registry s1.
Proof.
  unfold quantize_module_int8_. intros H.
  apply mbind_inv in H as (s2 & b & Hb & H). unfold quantized_registry_mem in Hb.
  injection Hb as <- <-. case_bool_decide.
  - by injection H as <- _.
  - apply mbind_inv in H as (s3 & mods & _ & H).
    apply mbind_inv in H as (s4 & params & _ & H).
    apply mbind_inv in H as (s5 & u & _ & H).
    apply mbind_inv in H as (s6 & u' & Hadd & H).
    unfold mret in H. injection H as <- _.
    unfold quantized_registry_add in Hadd. injection Hadd as <- _.
    simpl. set_solver.
Qed.

(** C4: once [quantize_module_int8_] has completed on a module, a later
    call on it (with any arguments) returns at once and leaves the whole
    state (hooks, handles, registries) as the first call left it. *)
Theorem quantize_module_second_call_noop (m : nat) (min : Q) (bs : nat)
    (s s1 : State) (r : option nat) :
  quantize_module_int8_ m min bs s = (s1, inr r) ->
  forall (min' : Q) (bs' : nat), quantize_module_int8_ m min' bs' s1 = (s1, inr None).
Proof.
  intros H min' bs'. pose proof (quantize_module_registered _ _ _ _ _ _ H) as Hin.
  unfold quantize_module_int8_, mbind, quantized_registry_mem.
  rewrite bool_decide_true by exact Hin. reflexivity.
Qed.

(** C6 (code_bug): on a module already orchestrated the early [return]
    gives [None], not the module. *)
Theorem quantize_module_returns_none_when_done :
  let (s1, r1) := quantize_module_int8_ 0 0 256 S0 in
  r1 = inr (Some 0%nat) /\ quantize_module_int8_ 0 0 256 s1 = (s1, inr None).
Proof. vm_compute. split; reflexivity. Qed.

(** ** Dangling handles *)

(** C7: with its owning module destroyed, every handle operation that
    dereferences it raises [ModuleGone] and changes nothing. *)
Theorem handle_ops_module_gone (h : Handle) (s : State) (bs : nat) :
  st_modules s !! h_module h = None ->
  h_mod h s = (s, inl ModuleGone) /\
  h_quantize_ bs h s = (s, inl ModuleGone) /\
  h_unquantize_ h s = (s, inl ModuleGone) /\
  h_flush_unquantized_ h s = (s, inl ModuleGone) /\
  h_unquantized_value h s = (s, inl ModuleGone) /\
  h_dtype h s = (s, inl ModuleGone) /\
  h_device h s = (s, inl ModuleGone) /\
  h_mean h s = (s, inl ModuleGone) /\
  h_scale h s = (s, inl ModuleGone) /\
  h_q8 h s = (s, inl ModuleGone).
Proof.
  intros Hgone.
  assert (Hm : h_mod h s = (s, inl ModuleGone)) by (unfold h_mod; by rewrite Hgone).
  assert (Hmu : h_mean h s = (s, inl ModuleGone)) by (unfold h_mean; by apply mbind_inl).
  assert (Hq : h_q8 h s = (s, inl ModuleGone)) by (unfold h_q8; by apply mbind_inl).
  split; [exact Hm|].
  split; [unfold h_quantize_; by apply mbind_inl|].
  split; [unfold h_unquantize_; by apply mbind_inl|].
  split; [unfold h_flush_unquantized_; by apply mbind_inl|].
  split; [unfold h_unquantized_value; by apply mbind_inl|].
  split; [unfold h_dtype; by apply mbind_inl|].
  split; [unfold h_device; by apply mbind_inl|].
  split; [exact Hmu|].
  split; [unfold h_scale; by apply mbind_inl|].
  exact Hq.
Qed.

(** ** Introspection *)

(** C9: [get_size_dtype_device] returns the live tensor's size, dtype and
    device when the attribute is present; otherwise, when the module's
    registry entry has a handle under that name, the handle's size, dtype
    and device (evaluated as the handle's properties); otherwise it
    raises [AttributeError]. *)
Theorem get_size_dtype_device_cases (module : nat) (name : string) (s : State) (m : Module) :
  st_modules s !! module = Some m ->
  (forall t, dict_lookup name (m_params m) = Some t ->
     get_size_dtype_device module name s = (s, inr (t_size t, t_dtype t, t_device t))) /\
  (dict_lookup name (m_params m) = None ->
     forall ps h, st_params_registry s !! module = Some ps -> dict_lookup name ps = Some h ->
     get_size_dtype_device module name s =
       (let* dt := h_dtype h in let* dev := h_device h in mret (h_size h, dt, dev)) s) /\
  (dict_lookup name (m_params m) = None ->
     (forall ps, st_params_registry s !! module = Some ps -> dict_lookup name ps = None) ->
     get_size_dtype_device module name s = (s, inl AttributeError)).
Proof.
  intros Hm.
  assert (Hget : getattr module name s =
            match dict_lookup name (m_params m) with
            | Some t => (s, inr t) | None => (s, inl AttributeError) end).
  { unfold getattr, mbind, get_module. rewrite Hm. by destruct (dict_lookup name (m_params m)). }
  unfold get_size_dtype_device. rewrite Hget.
  split; [intros t -> ; reflexivity|]. split.
  - intros -> ps h Hps Hh. rewrite Hps, Hh. reflexivity.
  - intros -> Hno. destruct (st_params_registry s !! module) as [ps|] eqn:Hps; [|reflexivity].
    rewrite (Hno ps eq_refl). reflexivity.
Qed.

(** ** Frame lemmas *)

Lemma frame_ret {A} c (a : A) : frame c (mret a).
Proof. intros s s' r H. injection H as <- _. done. Qed.

Lemma frame_throw {A} c e : frame c (@mthrow A e).
Proof. intros s s' r H. injection H as <- _. done. Qed.

Lemma frame_bind {A B} c (op : M A) (f : A -> M B) :
  frame c op -> (forall a, frame c (f a)) -> frame c (mbind op f).
Proof.
  intros Hop Hf s s' r H. unfold mbind in H.
  destruct (op s) as [s1 [e|a]] eqn:E.
  - injection H as <- _. exact (Hop _ _ _ E).
  - destruct (Hop _ _ _ E) as (H1 & H2 & H3 & H4).
    destruct (Hf a _ _ _ H) as (H1' & H2' & H3' & H4').
    split; [congruence|]. split; [congruence|]. split.
    + intros k Hk. rewrite H3' by done. by apply H3.
    + intros k. by rewrite H4', H4.
Qed.

Lemma frame_get_module c k : frame c (get_module k).
Proof.
  intros s s' r H. unfold get_module in H.
  destruct (st_modules s !! k); injection H as <- _; done.
Qed.

Lemma frame_h_mod c h : frame c (h_mod h).
Proof.
  intros s s' r H. unfold h_mod in H.
  destruct (st_modules s !! h_module h); injection H as <- _; done.
Qed.

(** Bind on [get_module c] followed by an update of [c] keeping its shape. *)
Lemma frame_update c (f : Module -> list (string * Tensor)) :
  frame c (let* m := get_module c in
           put_module c (mkModule (f m) (m_children m) (m_pre_hooks m) (m_post_hooks m))).
Proof.
  intros s s' r H. unfold mbind, get_module in H.
  destruct (st_modules s !! c) as [m|] eqn:Hm; injection H as <- _; [|done].
  simpl. split; [done|]. split; [done|]. split.
  - intros k Hk. by rewrite lookup_insert_ne by congruence.
  - intros k. destruct (decide (k = c)) as [->|Hk].
    + by rewrite lookup_insert_eq, Hm.
    + by rewrite lookup_insert_ne by congruence.
Qed.

Lemma frame_getattr c name : frame c (getattr c name).
Proof.
  apply frame_bind; [apply frame_get_module|]. intros m.
  destruct (dict_lookup name (m_params m)); [apply frame_ret|apply frame_throw].
Qed.

Lemma frame_hasattr c name : frame c (hasattr c name).
Proof. apply frame_bind; [apply frame_get_module|]. intros m. apply frame_ret. Qed.

Lemma frame_setattr c name t : frame c (setattr c name t).
Proof. apply (frame_update c (fun m => dict_set name t (m_params m))). Qed.

Lemma frame_delattr c name : frame c (delattr c name).
Proof.
  intros s s' r H. unfold delattr, mbind, get_module in H.
  destruct (st_modules s !! c) as [m|] eqn:Hm; [|injection H as <- _; done].
  destruct (dict_lookup name (m_params m)) eqn:Hl; [|injection H as <- _; done].
  apply (frame_update c (fun m => dict_del name (m_params m)) s s' r).
  unfold mbind, get_module. by rewrite Hm.
Qed.

(** Binding on [h_mod h] passes [h_module h] on. *)
Lemma frame_bind_h_mod {B} c h (f : nat -> M B) :
  frame c (f (h_module h)) -> frame c (mbind (h_mod h) f).
Proof.
  intros Hf s s' r H. unfold mbind, h_mod in H.
  destruct (st_modules s !! h_module h); [exact (Hf _ _ _ H)|].
  injection H as <- _. done.
Qed.

Ltac frame_tac :=
  repeat match goal with
  | |- frame _ (mbind (h_mod _) _) => apply frame_bind_h_mod
  | |- frame _ (mbind _ _) => apply frame_bind; [|intros ?]
  | |- frame _ (mret _) => apply frame_ret
  | |- frame _ (mthrow _) => apply frame_throw
  | |- frame _ (getattr _ _) => apply frame_getattr
  | |- frame _ (hasattr _ _) => apply frame_hasattr
  | |- frame _ (setattr _ _ _) => apply frame_setattr
  | |- frame _ (delattr _ _) => apply frame_delattr
  | |- frame _ (match ?x with _ => _ end) => destruct x
  | |- frame _ (let '(_, _) := ?x in _) => destruct x
  end.

Section HandleFrame.
Variable h : Handle.

Lemma frame_h_quantize bs : frame (h_module h) (h_quantize_ bs h).
Proof.
  unfold h_quantize_. frame_tac.
Qed.

Lemma frame_h_flush : frame (h_module h) (h_flush_unquantized_ h).
Proof. unfold h_flush_unquantized_. frame_tac. Qed.

Lemma frame_h_unquantize : frame (h_module h) (h_unquantize_ h).
Proof.
  unfold h_unquantize_, h_unquantized_value, h_q8, h_scale, h_mean. frame_tac.
Qed.
End HandleFrame.

Lemma frame_process_params c min ps params cp :
  frame c (process_params c min ps params cp).
Proof.
  revert params cp. induction ps as [|[name w] ps IH]; intros params cp; simpl.
  - apply frame_ret.
  - destruct (Qlt_le_dec (size_mb w) min); [apply IH|].
    apply frame_bind; [apply (frame_h_quantize (mkHandle c name (t_size w)))|intros _].
    apply frame_bind; [apply (frame_h_flush (mkHandle c name (t_size w)))|intros _].
    apply IH.
Qed.

(** ** Python dicts *)

Section Dicts.
Context {V : Type}.

Lemma dict_lookup_set_eq (k : string) (v : V) d : dict_lookup k (dict_set k v d) = Some v.
Proof.
  induction d as [|[k' v'] d IH]; simpl; [by rewrite decide_True|].
  case_decide; simpl; [by rewrite decide_True|]. rewrite decide_False by done. exact IH.
Qed.

Lemma dict_lookup_set_ne (k k' : string) (v : V) d :
  k' <> k -> dict_lookup k' (dict_set k v d) = dict_lookup k' d.
Proof.
  intros Hne. induction d as [|[k0 v0] d IH]; simpl.
  - by rewrite decide_False.
  - case_decide as Hk; simpl.
    + subst k0. by rewrite !decide_False.
    + case_decide; [done|exact IH].
Qed.

Lemma dict_lookup_del_ne (k k' : string) (d : list (string * V)) :
  k' <> k -> dict_lookup k' (dict_del k d) = dict_lookup k' d.
Proof.
  intros Hne. induction d as [|[k0 v0] d IH]; simpl; [done|].
  case_decide as Hk; simpl.
  - subst k0. by rewrite decide_False.
  - case_decide; [done|exact IH].
Qed.

Lemma dict_lookup_del_none (k k' : string) (d : list (string * V)) :
  dict_lookup k' d = None -> dict_lookup k' (dict_del k d) = None.
Proof.
  induction d as [|[k0 v0] d IH]; simpl; [done|].
  case_decide; [done|]. intros Hl. case_decide; simpl; [done|].
  rewrite decide_False by done. exact (IH Hl).
Qed.

Lemma dict_lookup_elem_of (k : string) (d : list (string * V)) v :
  dict_lookup k d = Some v -> k ∈ map fst d.
Proof.
  induction d as [|[k0 v0] d IH]; simpl; [done|].
  case_decide; [subst; left|intros Hl; right; auto].
Qed.

Lemma dict_set_keys (k : string) (v : V) d :
  map fst (dict_set k v d) = if decide (k ∈ map fst d) then map fst d else map fst d ++ [k].
Proof.
  induction d as [|[k0 v0] d IH]; simpl; [done|].
  destruct (decide (k = k0)) as [->|Hk]; simpl.
  - rewrite decide_True by left. done.
  - rewrite IH. destruct (decide (k ∈ map fst d)).
    + rewrite decide_True by (right; done). done.
    + rewrite decide_False; [done|]. rewrite elem_of_cons. tauto.
Qed.

Lemma dict_set_nodup (k : string) (v : V) d :
  NoDup (map fst d) -> NoDup (map fst (dict_set k v d)).
Proof.
  intros Hd. rewrite dict_set_keys. case_decide; [done|].
  apply NoDup_app. split; [done|]. split; [|apply NoDup_singleton].
  intros x Hx Hx'. apply list_elem_of_singleton in Hx'. subst. done.
Qed.

Lemma dict_del_nodup (k : string) (d : list (string * V)) :
  NoDup (map fst d) -> NoDup (map fst (dict_del k d)).
Proof.
  induction d as [|[k0 v0] d IH]; simpl; [done|].
  intros Hd. apply NoDup_cons in Hd as [Hn Hd].
  case_decide; [done|]. simpl. apply NoDup_cons. split; [|auto].
  intros Hin. apply Hn. clear -Hin. induction d as [|[k1 v1] d IH]; simpl in *; [done|].
  case_decide; [right; done|]. simpl in Hin.
  apply elem_of_cons in Hin as [->|Hin]; [left|right; auto].
Qed.

End Dicts.

(** ** The parameter loop *)


Lemma fold_dict_set_in (Lc : list Handle) cp name :
  name ∈ map h_name Lc ->
  exists h, dict_lookup name (fold_left (fun d h => dict_set (h_name h) h d) Lc cp) = Some h /\
            h ∈ Lc /\ h_name h = name.
Proof.
  revert cp. induction Lc as [|h Lc IH]; intros cp Hin; simpl in *; [inversion Hin|].
  destruct (decide (name ∈ map h_name Lc)) as [Hl|Hl].
  - destruct (IH (dict_set (h_name h) h cp) Hl) as (h' & ? & ? & ?).
    exists h'. split; [done|]. split; [by right|done].
  - apply elem_of_cons in Hin as [->|Hin]; [|done].
    clear IH. exists h. split; [|split; [left|done]].
    assert (Hgen : forall d, dict_lookup (h_name h) d = Some h ->
              dict_lookup (h_name h) (fold_left (fun d h => dict_set (h_name h) h d) Lc d) = Some h).
    { clear -Hl. induction Lc as [|h' Lc IH]; intros d Hd; simpl; [done|].
      apply IH; [simpl in Hl; rewrite elem_of_cons in Hl; tauto|].
      rewrite dict_lookup_set_ne; [done|]. simpl in Hl. rewrite elem_of_cons in Hl. tauto. }
    apply Hgen. apply dict_lookup_set_eq.
Qed.



(** ** The traversal *)

Lemma traverse_spec min children seen params s s' params' :
  NoDup children ->
  traverse min children seen params s = (s', inr params') ->
  (forall k hs, st_params_registry s !! k = Some hs ->
     st_params_registry s' !! k = Some hs /\ st_modules s' !! k = st_modules s !! k) /\
  (forall k, (k ∉ children \/ k ∈ seen) ->
     st_params_registry s' !! k = st_params_registry s !! k /\
     st_modules s' !! k = st_modules s !! k) /\
  (forall k, k ∈ children -> k ∉ seen -> st_params_registry s !! k = None ->
     exists m s1 s2 p1 p2 cp,
       st_modules s !! k = Some m /\ st_modules s1 !! k = Some m /\
       process_params k min (m_params m) p1 [] s1 = (s2, inr (p2, cp)) /\
       st_params_registry s' !! k = Some cp /\ st_modules s' !! k = st_modules s2 !! k) /\
  (forall k, mod_shape (st_modules s' !! k) = mod_shape (st_modules s !! k)) /\
  st_quantized_registry s' = st_quantized_registry s.
Proof.
  revert seen params s. induction children as [|c rest IH]; intros seen params s Hnd H.
  { injection H as <- _. split; [done|]. split; [done|]. split; [|done].
    intros k Hk. inversion Hk. }
  apply NoDup_cons in Hnd as [Hc Hnd]. simpl in H.
  case_decide as Hcs.
  { destruct (IH _ _ _ Hnd H) as (Ha & Hb & Hcc & Hd & He).
    split; [exact Ha|]. split.
    - intros k [Hk|Hk]; apply Hb; [left; rewrite elem_of_cons in Hk; tauto|by right].
    - split; [|done]. intros k Hk Hks Hr. apply elem_of_cons in Hk as [->|Hk]; [done|].
      exact (Hcc k Hk Hks Hr). }
  unfold mbind at 1, params_registry_get in H.
  destruct (st_params_registry s !! c) as [hs|] eqn:Hreg.
  { destruct (IH _ _ _ Hnd H) as (Ha & Hb & Hcc & Hd & He).
    split; [exact Ha|]. split.
    - intros k [Hk|Hk]; apply Hb; [left; rewrite elem_of_cons in Hk; tauto|by right].
    - split; [|done]. intros k Hk Hks Hr. apply elem_of_cons in Hk as [->|Hk]; [congruence|].
      exact (Hcc k Hk Hks Hr). }
  apply mbind_inv in H as (s1 & ps & Hps & H).
  unfold named_parameters, mbind, get_module in Hps.
  destruct (st_modules s !! c) as [m|] eqn:Hm; [|discriminate].
  injection Hps as <- <-.
  apply mbind_inv in H as (s2 & [p2 cp] & Hpp & H).
  apply mbind_inv in H as (s3 & u & Hset & H).
  unfold params_registry_set in Hset. injection Hset as <- _. simpl in H.
  destruct (frame_process_params _ _ _ _ _ _ _ _ Hpp) as (Fr & Fq & Fm & Fs).
  destruct (IH _ _ _ Hnd H) as (Ha & Hb & Hcc & Hd & He). simpl in *.
  split; [|split; [|split; [|split]]].
  - intros k hs Hk. assert (k <> c) by congruence.
    destruct (Ha k hs) as [Ha1 Ha2].
    { by rewrite lookup_insert_ne, Fr by congruence. }
    split; [done|]. rewrite Ha2. by apply Fm.
  - intros k Hk. assert (k <> c).
    { intros ->. destruct Hk as [Hk|Hk]; [apply Hk; left|done]. }
    destruct (Hb k) as [Hb1 Hb2].
    { destruct Hk as [Hk|Hk]; [left; rewrite elem_of_cons in Hk; tauto|].
      right. apply elem_of_app. by left. }
    rewrite Hb1, Hb2, lookup_insert_ne by congruence. rewrite Fr. split; [done|]. by apply Fm.
  - intros k Hk Hks Hr. apply elem_of_cons in Hk as [->|Hk].
    + exists m, s, s2, params, p2, cp. split; [done|]. split; [done|]. split; [done|].
      destruct (Ha c cp) as [Ha1 Ha2]; [by rewrite lookup_insert_eq|]. done.
    + assert (k <> c) by (intros ->; done).
      destruct (Hcc k Hk) as (m' & t1 & t2 & q1 & q2 & cp' & H1 & H2 & H3 & H4 & H5).
      { rewrite elem_of_app, list_elem_of_singleton. tauto. }
      { by rewrite lookup_insert_ne, Fr by congruence. }
      exists m', t1, t2, q1, q2, cp'. rewrite <- (Fm k) by done. done.
  - intros k. by rewrite Hd, Fs.
  - by rewrite He.
Qed.

(** ** Parameter dicts stay duplicate-free *)

Lemma keeps_wf_ret {A} (a : A) : keeps_wf (mret a).
Proof. intros s s' r Hs H. by injection H as <- _. Qed.

Lemma keeps_wf_throw {A} e : keeps_wf (@mthrow A e).
Proof. intros s s' r Hs H. by injection H as <- _. Qed.

Lemma keeps_wf_bind {A B} (op : M A) (f : A -> M B) :
  keeps_wf op -> (forall a, keeps_wf (f a)) -> keeps_wf (mbind op f).
Proof.
  intros Hop Hf s s' r Hs H. unfold mbind in H.
  destruct (op s) as [s1 [e|a]] eqn:E.
  - injection H as <- _. exact (Hop _ _ _ Hs E).
  - exact (Hf a _ _ _ (Hop _ _ _ Hs E) H).
Qed.

Lemma keeps_wf_get_module k : keeps_wf (get_module k).
Proof.
  intros s s' r Hs H. unfold get_module in H.
  destruct (st_modules s !! k); injection H as <- _; done.
Qed.

Lemma keeps_wf_h_mod h : keeps_wf (h_mod h).
Proof.
  intros s s' r Hs H. unfold h_mod in H.
  destruct (st_modules s !! h_module h); injection H as <- _; done.
Qed.

Lemma keeps_wf_update c (f : Module -> list (string * Tensor)) :
  (forall m, NoDup (map fst (m_params m)) -> NoDup (map fst (f m))) ->
  keeps_wf (let* m := get_module c in
            put_module c (mkModule (f m) (m_children m) (m_pre_hooks m) (m_post_hooks m))).
Proof.
  intros Hf s s' r Hs H. unfold mbind, get_module in H.
  destruct (st_modules s !! c) as [m|] eqn:Hm; injection H as <- _; [|done].
  intros k m' Hk. simpl in Hk. destruct (decide (k = c)) as [->|Hne].
  - rewrite lookup_insert_eq in Hk. injection Hk as <-. simpl. apply Hf. exact (Hs _ _ Hm).
  - rewrite lookup_insert_ne in Hk by congruence. exact (Hs _ _ Hk).
Qed.

Lemma keeps_wf_getattr c name : keeps_wf (getattr c name).
Proof.
  apply keeps_wf_bind; [apply keeps_wf_get_module|]. intros m.
  destruct (dict_lookup name (m_params m)); [apply keeps_wf_ret|apply keeps_wf_throw].
Qed.

Lemma keeps_wf_hasattr c name : keeps_wf (hasattr c name).
Proof. apply keeps_wf_bind; [apply keeps_wf_get_module|]. intros m. apply keeps_wf_ret. Qed.

Lemma keeps_wf_setattr c name t : keeps_wf (setattr c name t).
Proof. apply (keeps_wf_update c (fun m => dict_set name t (m_params m))). intros m. apply dict_set_nodup. Qed.

Lemma keeps_wf_delattr c name : keeps_wf (delattr c name).
Proof.
  intros s s' r Hs H. unfold delattr, mbind, get_module in H.
  destruct (st_modules s !! c) as [m|] eqn:Hm; [|injection H as <- _; done].
  destruct (dict_lookup name (m_params m)) eqn:Hl; [|injection H as <- _; done].
  apply (keeps_wf_update c (fun m => dict_del name (m_params m))
           (fun m => dict_del_nodup name (m_params m)) s s' r Hs).
  unfold mbind, get_module. by rewrite Hm.
Qed.

Ltac keeps_tac :=
  repeat match goal with
  | |- keeps_wf (mbind _ _) => apply keeps_wf_bind; [|intros ?]
  | |- keeps_wf (mret _) => apply keeps_wf_ret
  | |- keeps_wf (mthrow _) => apply keeps_wf_throw
  | |- keeps_wf (h_mod _) => apply keeps_wf_h_mod
  | |- keeps_wf (getattr _ _) => apply keeps_wf_getattr
  | |- keeps_wf (hasattr _ _) => apply keeps_wf_hasattr
  | |- keeps_wf (setattr _ _ _) => apply keeps_wf_setattr
  | |- keeps_wf (delattr _ _) => apply keeps_wf_delattr
  | |- keeps_wf (match ?x with _ => _ end) => destruct x
  end.


(** ** Distinct handles *)




(** ** [modules()] and the orchestrator's steps *)

Lemma modules_go_nodup fuel s id memo :
  NoDup memo -> NoDup (modules_go fuel s id memo).
Proof.
  revert id memo. induction fuel as [|fuel IH]; intros id memo Hnd; simpl; [done|].
  case_decide as Hin; [done|].
  assert (Hnd' : NoDup (memo ++ [id])).
  { apply NoDup_app. split; [done|]. split; [|apply NoDup_singleton].
    intros x Hx Hx'. apply list_elem_of_singleton in Hx'. by subst. }
  destruct (st_modules s !! id) as [m|]; [|done].
  generalize dependent (memo ++ [id]). clear Hin Hnd.
  induction (m_children m) as [|c cs IHc]; intros acc Hacc; simpl; [done|].
  apply IHc. by apply IH.
Qed.

Lemma quantize_module_steps root min bs s s' r :
  root ∉ st_quantized_registry s ->
  quantize_module_int8_ root min bs s = (s', inr r) ->
  exists params s1 m,
    traverse min (modules_go (S (size (st_modules s))) s root []) [] [] s = (s1, inr params) /\
    st_modules s1 !! root = Some m /\
    st_modules s' = <[root := mkModule (m_params m) (m_children m)
                              (m_pre_hooks m ++ [params]) (m_post_hooks m ++ [params])]>
                      (st_modules s1) /\
    st_params_registry s' = st_params_registry s1 /\
    st_quantized_registry s' = {[root]} ∪ st_quantized_registry s1 /\
    r = Some root.
Proof.
  intros Hq H. unfold quantize_module_int8_ in H.
  apply mbind_inv in H as (s2 & b & Hb & H). unfold quantized_registry_mem in Hb.
  injection Hb as <- <-. rewrite bool_decide_false in H by done.
  apply mbind_inv in H as (s3 & mods & Hmods & H). unfold modules in Hmods.
  injection Hmods as <- <-.
  apply mbind_inv in H as (s4 & params & Htr & H).
  apply mbind_inv in H as (s5 & u & Hreg & H).
  apply mbind_inv in H as (s6 & u' & Hadd & H).
  unfold mret in H. injection H as <- <-.
  unfold quantized_registry_add in Hadd. injection Hadd as <- _.
  unfold register_hooks, mbind, get_module in Hreg.
  destruct (st_modules s4 !! root) as [m|] eqn:Hm; [|discriminate].
  unfold put_module in Hreg. injection Hreg as <- _.
  exists params, s4, m. simpl. done.
Qed.




(** ** Attribute names of the triple *)

Lemma list_ascii_append (a b : string) :
  String.list_ascii_of_string (a +:+ b) = String.list_ascii_of_string a ++ String.list_ascii_of_string b.
Proof. induction a as [|ch a IH]; simpl; [done|]. by rewrite IH. Qed.

Lemma triple_name_inj (a b t1 t2 : string) :
  In t1 triple_suffixes -> In t2 triple_suffixes -> a +:+ t1 = b +:+ t2 -> a = b /\ t1 = t2.
Proof.
  intros H1 H2 E. apply (f_equal String.list_ascii_of_string) in E. rewrite !list_ascii_append in E.
  assert (Hsame : forall t, String.list_ascii_of_string a ++ t = String.list_ascii_of_string b ++ t -> a = b).
  { intros t Et. apply app_inv_tail in Et.
    rewrite <- (String.string_of_list_ascii_of_string a), Et. apply String.string_of_list_ascii_of_string. }
  simpl in H1, H2.
  destruct H1 as [<-|[<-|[<-|[]]]]; destruct H2 as [<-|[<-|[<-|[]]]];
    try (split; [exact (Hsame _ E)|reflexivity]);
    apply (f_equal (@rev _)) in E; rewrite !rev_app_distr in E; simpl in E; discriminate E.
Qed.


(** ** Dict lookups *)

Lemma dict_lookup_In {V} (k : string) (v : V) d : dict_lookup k d = Some v -> In (k, v) d.
Proof.
  induction d as [|[k0 v0] d IH]; simpl; [done|].
  case_decide as Hk; [intros Hv; injection Hv as <-; left; by rewrite Hk|intros Hl; right; auto].
Qed.

Lemma dict_lookup_notin {V} (k : string) (d : list (string * V)) :
  k ∉ map fst d -> dict_lookup k d = None.
Proof.
  intros Hn. destruct (dict_lookup k d) as [v|] eqn:Hl; [|done].
  exfalso. apply Hn. exact (dict_lookup_elem_of _ _ _ Hl).
Qed.

Lemma dict_lookup_of_In {V} (k : string) (v : V) d :
  NoDup (map fst d) -> In (k, v) d -> dict_lookup k d = Some v.
Proof.
  induction d as [|[k0 v0] d IH]; simpl; [done|].
  intros Hnd Hin. apply NoDup_cons in Hnd as [Hn Hnd].
  destruct Hin as [Heq|Hin].
  - injection Heq as -> ->. by rewrite decide_True.
  - rewrite decide_False; [by apply IH|]. intros ->. apply Hn.
    apply list_elem_of_In. apply in_map_iff. by exists (k0, v).
Qed.

Lemma dict_lookup_del_eq {V} (k : string) (d : list (string * V)) :
  NoDup (map fst d) -> dict_lookup k (dict_del k d) = None.
Proof.
  induction d as [|[k0 v0] d IH]; simpl; [done|].
  intros Hnd. apply NoDup_cons in Hnd as [Hn Hnd]. case_decide as Hk.
  - subst. by apply dict_lookup_notin.
  - simpl. rewrite decide_False by done. auto.
Qed.

(** ** How the attribute operations change one parameter *)

Lemma keeps_attr_ret {A} c k (a : A) : keeps_attr c k (mret a).
Proof. intros s s' r H. by injection H as <- _. Qed.

Lemma keeps_attr_throw {A} c k e : keeps_attr c k (@mthrow A e).
Proof. intros s s' r H. by injection H as <- _. Qed.

Lemma keeps_attr_bind {A B} c k (op : M A) (f : A -> M B) :
  keeps_attr c k op -> (forall a, keeps_attr c k (f a)) -> keeps_attr c k (mbind op f).
Proof.
  intros Hop Hf s s' r H. unfold mbind in H.
  destruct (op s) as [s1 [e|a]] eqn:E.
  - injection H as <- _. exact (Hop _ _ _ E).
  - rewrite (Hf a _ _ _ H). exact (Hop _ _ _ E).
Qed.

Lemma keeps_attr_bind_h_mod {B} c k h (f : nat -> M B) :
  keeps_attr c k (f (h_module h)) -> keeps_attr c k (mbind (h_mod h) f).
Proof.
  intros Hf s s' r H. unfold mbind, h_mod in H.
  destruct (st_modules s !! h_module h); [exact (Hf _ _ _ H)|].
  by injection H as <- _.
Qed.

Lemma keeps_attr_get_module c k id : keeps_attr c k (get_module id).
Proof.
  intros s s' r H. unfold get_module in H.
  destruct (st_modules s !! id); injection H as <- _; done.
Qed.

Lemma keeps_attr_getattr c k id name : keeps_attr c k (getattr id name).
Proof.
  apply keeps_attr_bind; [apply keeps_attr_get_module|]. intros m.
  destruct (dict_lookup name (m_params m)); [apply keeps_attr_ret|apply keeps_attr_throw].
Qed.

Lemma keeps_attr_setattr c k id name t :
  (id <> c \/ name <> k) -> keeps_attr c k (setattr id name t).
Proof.
  intros Hne s s' r H. unfold setattr, mbind, get_module in H.
  destruct (st_modules s !! id) as [m|] eqn:Hm; injection H as <- _; [|done].
  unfold attr. simpl. destruct (decide (c = id)) as [->|Hc].
  - rewrite lookup_insert_eq, Hm. simpl.
    rewrite dict_lookup_set_ne; [done|]. destruct Hne as [Hne|Hne]; congruence.
  - by rewrite lookup_insert_ne by congruence.
Qed.

Lemma keeps_attr_delattr c k id name :
  (id <> c \/ name <> k) -> keeps_attr c k (delattr id name).
Proof.
  intros Hne s s' r H. unfold delattr, mbind, get_module in H.
  destruct (st_modules s !! id) as [m|] eqn:Hm; [|by injection H as <- _].
  destruct (dict_lookup name (m_params m)); [|by injection H as <- _].
  unfold put_module in H. injection H as <- _.
  unfold attr. simpl. destruct (decide (c = id)) as [->|Hc].
  - rewrite lookup_insert_eq, Hm. simpl.
    rewrite dict_lookup_del_ne; [done|]. destruct Hne as [Hne|Hne]; congruence.
  - by rewrite lookup_insert_ne by congruence.
Qed.

Lemma h_mod_inv h s s' m : h_mod h s = (s', inr m) -> s' = s /\ m = h_module h.
Proof. unfold h_mod. destruct (st_modules s !! h_module h); intros H; by injection H. Qed.

Lemma getattr_inv c k s s' t : getattr c k s = (s', inr t) -> s' = s /\ attr c k s = Some (Some t).
Proof.
  unfold getattr, mbind, get_module, attr. destruct (st_modules s !! c) as [m|]; [|discriminate].
  simpl. destruct (dict_lookup k (m_params m)); intros H; [injection H as <- <-; done|discriminate].
Qed.

Lemma setattr_attr_eq c k t s s' u :
  setattr c k t s = (s', inr u) -> attr c k s' = Some (Some t).
Proof.
  unfold setattr, mbind, get_module. destruct (st_modules s !! c) as [m|]; [|discriminate].
  intros H. injection H as <- _. unfold attr. simpl.
  rewrite lookup_insert_eq. simpl. by rewrite dict_lookup_set_eq.
Qed.

Lemma delattr_attr_eq c k s s' u :
  params_nodup c s -> delattr c k s = (s', inr u) -> attr c k s' = Some None.
Proof.
  intros Hnd. unfold delattr, mbind, get_module.
  destruct (st_modules s !! c) as [m|] eqn:Hm; [|discriminate].
  destruct (dict_lookup k (m_params m)); [|discriminate].
  intros H. injection H as <- _. unfold attr. simpl.
  rewrite lookup_insert_eq. simpl. rewrite dict_lookup_del_eq; [done|]. exact (Hnd m Hm).
Qed.

Lemma params_nodup_setattr c id k t s s' r :
  params_nodup c s -> setattr id k t s = (s', r) -> params_nodup c s'.
Proof.
  intros Hnd H. unfold setattr, mbind, get_module in H.
  destruct (st_modules s !! id) as [m|] eqn:Hm; injection H as <- _; [|done].
  intros m' Hm'. simpl in Hm'. destruct (decide (c = id)) as [->|Hc].
  - rewrite lookup_insert_eq in Hm'. injection Hm' as <-. apply dict_set_nodup. exact (Hnd m Hm).
  - rewrite lookup_insert_ne in Hm' by congruence. exact (Hnd m' Hm').
Qed.

Lemma params_nodup_delattr c id k s s' r :
  params_nodup c s -> delattr id k s = (s', r) -> params_nodup c s'.
Proof.
  intros Hnd H. unfold delattr, mbind, get_module in H.
  destruct (st_modules s !! id) as [m|] eqn:Hm; [|by injection H as <- _].
  destruct (dict_lookup k (m_params m)); [|by injection H as <- _].
  unfold put_module in H. injection H as <- _.
  intros m' Hm'. simpl in Hm'. destruct (decide (c = id)) as [->|Hc].
  - rewrite lookup_insert_eq in Hm'. injection Hm' as <-. apply dict_del_nodup. exact (Hnd m Hm).
  - rewrite lookup_insert_ne in Hm' by congruence. exact (Hnd m' Hm').
Qed.

Ltac sfx_tac :=
  unfold triple_suffixes; simpl;
  first [ left; reflexivity | right; left; reflexivity | right; right; left; reflexivity
        | discriminate ].

Lemma triple_names_distinct (a b t1 t2 : string) :
  In t1 triple_suffixes -> In t2 triple_suffixes -> t1 <> t2 -> a +:+ t1 <> b +:+ t2.
Proof. intros H1 H2 Hne E. apply Hne. exact (proj2 (triple_name_inj _ _ _ _ H1 H2 E)). Qed.

(** ** One parameter through the loop *)

Lemma keeps_attr_quantize_step c k X sz :
  (forall t, In t triple_suffixes -> X +:+ t <> k) ->
  keeps_attr c k (h_quantize_ 256 (mkHandle c X sz)).
Proof.
  intros Hk. unfold h_quantize_.
  apply keeps_attr_bind_h_mod. cbn [h_module h_name].
  apply keeps_attr_bind; [apply keeps_attr_getattr|]. intros w'.
  destruct (_quantize_weight_int8 w' 256) as [[[q8 sc] mu]|]; [|apply keeps_attr_throw].
  apply keeps_attr_bind_h_mod. cbn [h_module h_name].
  apply keeps_attr_bind; [apply keeps_attr_setattr; right; apply Hk; simpl; tauto|]. intros _.
  apply keeps_attr_bind_h_mod. cbn [h_module h_name].
  apply keeps_attr_bind; [apply keeps_attr_setattr; right; apply Hk; simpl; tauto|]. intros _.
  apply keeps_attr_bind_h_mod. cbn [h_module h_name].
  apply keeps_attr_setattr; right; apply Hk; simpl; tauto.
Qed.

Lemma keeps_attr_flush_step c k X sz :
  X <> k -> keeps_attr c k (h_flush_unquantized_ (mkHandle c X sz)).
Proof.
  intros Hk. unfold h_flush_unquantized_. apply keeps_attr_bind_h_mod. cbn [h_module h_name].
  apply keeps_attr_delattr. by right.
Qed.

Lemma keeps_attr_process_params c k min ps params cp :
  (forall X w, In (X, w) ps -> large min (X, w) = true ->
     X <> k /\ forall t, In t triple_suffixes -> X +:+ t <> k) ->
  keeps_attr c k (process_params c min ps params cp).
Proof.
  revert params cp. induction ps as [|[X w] ps IH]; intros params cp Hk; simpl.
  - apply keeps_attr_ret.
  - assert (Hk' : forall X' w', In (X', w') ps -> large min (X', w') = true ->
                    X' <> k /\ forall t, In t triple_suffixes -> X' +:+ t <> k)
      by (intros; eapply Hk; eauto; right; done).
    destruct (Qlt_le_dec (size_mb w) min) as [Hlt|Hge]; [by apply IH|].
    assert (Hl : large min (X, w) = true).
    { unfold large; simpl. destruct (Qlt_le_dec (size_mb w) min); [lra|done]. }
    destruct (Hk X w (or_introl eq_refl) Hl) as [HX Ht].
    apply keeps_attr_bind; [by apply keeps_attr_quantize_step|]. intros _.
    apply keeps_attr_bind; [by apply keeps_attr_flush_step|]. intros _. by apply IH.
Qed.

Lemma quantize_step_attrs c X sz w s s1 u :
  attr c X s = Some (Some w) -> params_nodup c s ->
  h_quantize_ 256 (mkHandle c X sz) s = (s1, inr u) ->
  params_nodup c s1 /\
  exists q8 sc mu, _quantize_weight_int8 w 256 = Some (q8, sc, mu) /\
    attr c (X +:+ "_q8") s1 = Some (Some q8) /\
    attr c (X +:+ "_scale") s1 = Some (Some sc) /\
    attr c (X +:+ "_mean") s1 = Some (Some mu).
Proof.
  intros Hw Hnd H. unfold h_quantize_ in H.
  apply mbind_inv in H as (sa & m1 & Hm1 & H). apply h_mod_inv in Hm1 as [-> ->].
  cbn [h_module h_name] in H.
  apply mbind_inv in H as (sb & w' & Hw' & H). apply getattr_inv in Hw' as [-> Hw'].
  rewrite Hw in Hw'. injection Hw' as <-.
  destruct (_quantize_weight_int8 w 256) as [[[q8 sc] mu]|] eqn:Hq; [|discriminate].
  apply mbind_inv in H as (sc0 & m2 & Hm2 & H). apply h_mod_inv in Hm2 as [-> ->].
  cbn [h_module h_name] in H.
  apply mbind_inv in H as (s2 & u2 & H2 & H).
  apply mbind_inv in H as (sd & m3 & Hm3 & H). apply h_mod_inv in Hm3 as [-> ->].
  cbn [h_module h_name] in H.
  apply mbind_inv in H as (s3 & u3 & H3 & H).
  apply mbind_inv in H as (se & m4 & Hm4 & H). apply h_mod_inv in Hm4 as [-> ->].
  cbn [h_module h_name] in H.
  assert (D1 : X +:+ "_mean" <> X +:+ "_q8") by (apply triple_names_distinct; sfx_tac).
  assert (D2 : X +:+ "_scale" <> X +:+ "_q8") by (apply triple_names_distinct; sfx_tac).
  assert (D3 : X +:+ "_mean" <> X +:+ "_scale") by (apply triple_names_distinct; sfx_tac).
  split.
  { eapply params_nodup_setattr; [|exact H].
    eapply params_nodup_setattr; [|exact H3].
    eapply params_nodup_setattr; [exact Hnd|exact H2]. }
  exists q8, sc, mu. split; [done|]. split; [|split].
  - rewrite (keeps_attr_setattr c _ c _ mu (or_intror D1) _ _ _ H).
    rewrite (keeps_attr_setattr c _ c _ sc (or_intror D2) _ _ _ H3).
    exact (setattr_attr_eq _ _ _ _ _ _ H2).
  - rewrite (keeps_attr_setattr c _ c _ mu (or_intror D3) _ _ _ H).
    exact (setattr_attr_eq _ _ _ _ _ _ H3).
  - exact (setattr_attr_eq _ _ _ _ _ _ H).
Qed.

Lemma flush_step_attrs c X sz s s' u :
  params_nodup c s -> h_flush_unquantized_ (mkHandle c X sz) s = (s', inr u) ->
  params_nodup c s' /\ attr c X s' = Some None.
Proof.
  intros Hnd H. unfold h_flush_unquantized_ in H.
  apply mbind_inv in H as (sa & m & Hm & H). apply h_mod_inv in Hm as [-> ->].
  cbn [h_module h_name] in H.
  split; [exact (params_nodup_delattr _ _ _ _ _ _ Hnd H)|exact (delattr_attr_eq _ _ _ _ _ Hnd H)].
Qed.

Lemma process_params_attrs c min ps params cp s s' res :
  NoDup (map fst ps) -> params_nodup c s ->
  (forall X w, In (X, w) ps -> attr c X s = Some (Some w)) ->
  (forall X w t, In (X, w) ps -> In t triple_suffixes -> attr c (X +:+ t) s = Some None) ->
  process_params c min ps params cp s = (s', inr res) ->
  forall X w, In (X, w) ps ->
    (large min (X, w) = true -> quantized_form c X w s') /\
    (large min (X, w) = false ->
       attr c X s' = Some (Some w) /\
       forall t, In t triple_suffixes -> attr c (X +:+ t) s' = Some None).
Proof.
  revert params cp s.
  induction ps as [|[X0 w0] ps IH]; intros params cp s Hnd Hnc Hval Hfr H X w Hin; [destruct Hin|].
  simpl in Hnd. apply NoDup_cons in Hnd as [Hn0 Hnd].
  assert (Hne : forall Y wY Z wZ t, In (Y, wY) ((X0, w0) :: ps) -> In (Z, wZ) ((X0, w0) :: ps) ->
                  In t triple_suffixes -> Y +:+ t <> Z).
  { intros Y wY Z wZ t HY HZ Ht E. pose proof (Hfr Y wY t HY Ht) as H1.
    rewrite E, (Hval Z wZ HZ) in H1. discriminate. }
  assert (HX0 : forall Y wY, In (Y, wY) ps -> Y <> X0).
  { intros Y wY HY ->. apply Hn0. apply list_elem_of_In, in_map_iff. by exists (X0, wY). }
  assert (Hkeep : forall p' cp' k, (k = X0 \/ exists t', In t' triple_suffixes /\ k = X0 +:+ t') ->
                    keeps_attr c k (process_params c min ps p' cp')).
  { intros p' cp' k Hk. apply keeps_attr_process_params. intros Y wY HY _. split.
    - destruct Hk as [->|(t' & Ht' & ->)]; [exact (HX0 _ _ HY)|].
      intros E. symmetry in E. exact (Hne X0 w0 Y wY t' (or_introl eq_refl) (or_intror HY) Ht' E).
    - intros t Ht E. destruct Hk as [->|(t' & Ht' & ->)].
      + exact (Hne Y wY X0 w0 t (or_intror HY) (or_introl eq_refl) Ht E).
      + destruct (triple_name_inj _ _ _ _ Ht Ht' E) as [HY0 _]. exact (HX0 _ _ HY HY0). }
  simpl in H. destruct (Qlt_le_dec (size_mb w0) min) as [Hlt|Hge].
  - destruct Hin as [Heq|Hin].
    + injection Heq as <- <-. unfold large; cbn [snd].
      destruct (Qlt_le_dec (size_mb w0) min) as [_|Hge]; [|lra].
      split; [discriminate|]. intros _. split.
      * rewrite (Hkeep _ _ X0 (or_introl eq_refl) _ _ _ H). exact (Hval X0 w0 (or_introl eq_refl)).
      * intros t Ht.
        rewrite (Hkeep _ _ (X0 +:+ t) (or_intror (ex_intro _ t (conj Ht eq_refl))) _ _ _ H).
        exact (Hfr X0 w0 t (or_introl eq_refl) Ht).
    + exact (IH params cp s Hnd Hnc (fun Y wY HY => Hval Y wY (or_intror HY))
               (fun Y wY t HY Ht => Hfr Y wY t (or_intror HY) Ht) H X w Hin).
  - apply mbind_inv in H as (s1 & u1 & H1 & H). apply mbind_inv in H as (s2 & u2 & H2 & H).
    destruct (quantize_step_attrs c X0 (t_size w0) w0 s s1 u1
                (Hval _ _ (or_introl eq_refl)) Hnc H1)
      as [Hnc1 (q8 & sc & mu & Hq & Hq8 & Hsc & Hmu)].
    destruct (flush_step_attrs _ _ _ _ _ _ Hnc1 H2) as [Hnc2 HX2].
    assert (Hother : forall k, X0 <> k -> (forall t, In t triple_suffixes -> X0 +:+ t <> k) ->
                       attr c k s2 = attr c k s).
    { intros k Hk Hkt. rewrite (keeps_attr_flush_step c k X0 (t_size w0) Hk _ _ _ H2).
      exact (keeps_attr_quantize_step c k X0 (t_size w0) Hkt _ _ _ H1). }
    assert (Hflush : forall t, In t triple_suffixes -> attr c (X0 +:+ t) s2 = attr c (X0 +:+ t) s1).
    { intros t Ht. apply (keeps_attr_flush_step c _ X0 (t_size w0)) with (2 := H2).
      intros E. symmetry in E.
      exact (Hne X0 w0 X0 w0 t (or_introl eq_refl) (or_introl eq_refl) Ht E). }
    destruct Hin as [Heq|Hin].
    + injection Heq as <- <-. unfold large; cbn [snd].
      destruct (Qlt_le_dec (size_mb w0) min) as [Hlt|_]; [lra|].
      split; [intros _|discriminate].
      split; [by rewrite (Hkeep _ _ X0 (or_introl eq_refl) _ _ _ H)|].
      exists q8, sc, mu. split; [done|].
      assert (Hs : forall t, In t triple_suffixes -> attr c (X0 +:+ t) s' = attr c (X0 +:+ t) s1).
      { intros t Ht. rewrite (Hkeep _ _ (X0 +:+ t) (or_intror (ex_intro _ t (conj Ht eq_refl))) _ _ _ H).
        by apply Hflush. }
      rewrite !Hs by sfx_tac. done.
    + eapply (IH _ _ s2 Hnd Hnc2); [| |exact H|exact Hin].
      * intros Y wY HY. rewrite Hother; [exact (Hval Y wY (or_intror HY))| |].
        -- intros E. symmetry in E. exact (HX0 _ _ HY E).
        -- intros t Ht. exact (Hne X0 w0 Y wY t (or_introl eq_refl) (or_intror HY) Ht).
      * intros Y wY t HY Ht. rewrite Hother; [exact (Hfr Y wY t (or_intror HY) Ht)| |].
        -- intros E. exact (Hne Y wY X0 w0 t (or_intror HY) (or_introl eq_refl) Ht (eq_sym E)).
        -- intros t' Ht' E. destruct (triple_name_inj _ _ _ _ Ht' Ht E) as [E' _].
           symmetry in E'. exact (HX0 _ _ HY E').
Qed.



(** ** The hooks of one orchestration *)

Lemma attr_alive c k s o : attr c k s = Some o -> exists mc, st_modules s !! c = Some mc.
Proof. unfold attr. destruct (st_modules s !! c) as [mc|]; [by exists mc|discriminate]. Qed.

Lemma h_mod_ok h s mc : st_modules s !! h_module h = Some mc -> h_mod h s = (s, inr (h_module h)).
Proof. intros Hm. unfold h_mod. by rewrite Hm. Qed.

Lemma getattr_present c k s t : attr c k s = Some (Some t) -> getattr c k s = (s, inr t).
Proof.
  unfold attr, getattr, mbind, get_module. destruct (st_modules s !! c) as [mc|]; [|discriminate].
  simpl. intros Ht. injection Ht as ->. done.
Qed.

Lemma hasattr_absent c k s : attr c k s = Some None -> hasattr c k s = (s, inr false).
Proof.
  unfold attr, hasattr, mbind, get_module. destruct (st_modules s !! c) as [mc|]; [|discriminate].
  simpl. intros Ht. injection Ht as ->. done.
Qed.

Lemma setattr_ok c k t s mc : st_modules s !! c = Some mc -> exists s', setattr c k t s = (s', inr tt).
Proof. intros Hm. unfold setattr, mbind, get_module. rewrite Hm. by eexists. Qed.

Lemma triple_decodes_det h w w' s : triple_decodes h w s -> triple_decodes h w' s -> w = w'.
Proof.
  intros (q8 & sc & mu & H1 & H2 & H3 & H4) (q8' & sc' & mu' & H1' & H2' & H3' & H4').
  rewrite H1 in H1'. rewrite H2 in H2'. rewrite H3 in H3'.
  injection H1' as <-. injection H2' as <-. injection H3' as <-. congruence.
Qed.

Lemma triple_decodes_keep h w s s' :
  (forall t, In t triple_suffixes -> attr (h_module h) (h_name h +:+ t) s' = attr (h_module h) (h_name h +:+ t) s) ->
  triple_decodes h w s -> triple_decodes h w s'.
Proof.
  intros Hk (q8 & sc & mu & H1 & H2 & H3 & H4). exists q8, sc, mu.
  rewrite !Hk by sfx_tac. done.
Qed.

Lemma h_unquantized_value_ok h w s : triple_decodes h w s -> h_unquantized_value h s = (s, inr w).
Proof.
  intros (q8 & sc & mu & H1 & H2 & H3 & H4). destruct (attr_alive _ _ _ _ H1) as [mc Hm].
  assert (E1 : h_q8 h s = (s, inr q8)).
  { unfold h_q8. rewrite (mbind_inr _ _ _ _ _ (h_mod_ok _ _ _ Hm)). exact (getattr_present _ _ _ _ H1). }
  assert (E2 : h_scale h s = (s, inr sc)).
  { unfold h_scale. rewrite (mbind_inr _ _ _ _ _ (h_mod_ok _ _ _ Hm)). exact (getattr_present _ _ _ _ H2). }
  assert (E3 : h_mean h s = (s, inr mu)).
  { unfold h_mean. rewrite (mbind_inr _ _ _ _ _ (h_mod_ok _ _ _ Hm)). exact (getattr_present _ _ _ _ H3). }
  unfold h_unquantized_value.
  rewrite (mbind_inr _ _ _ _ _ E1), (mbind_inr _ _ _ _ _ E2), (mbind_inr _ _ _ _ _ E3), H4. done.
Qed.

Lemma keeps_attr_h_mod c k h : keeps_attr c k (h_mod h).
Proof.
  intros s s' r H. unfold h_mod in H.
  destruct (st_modules s !! h_module h); injection H as <- _; done.
Qed.

Lemma keeps_attr_hasattr c k id name : keeps_attr c k (hasattr id name).
Proof. apply keeps_attr_bind; [apply keeps_attr_get_module|]. intros m. apply keeps_attr_ret. Qed.

Lemma keeps_attr_h_unquantize c k h :
  (h_module h <> c \/ h_name h <> k) -> keeps_attr c k (h_unquantize_ h).
Proof.
  intros Hne. unfold h_unquantize_, h_unquantized_value, h_q8, h_scale, h_mean.
  repeat match goal with
  | |- keeps_attr _ _ (mbind (h_mod _) _) => apply keeps_attr_bind_h_mod
  | |- keeps_attr _ _ (mbind _ _) => apply keeps_attr_bind; [|intros ?]
  | |- keeps_attr _ _ (mret _) => apply keeps_attr_ret
  | |- keeps_attr _ _ (mthrow _) => apply keeps_attr_throw
  | |- keeps_attr _ _ (getattr _ _) => apply keeps_attr_getattr
  | |- keeps_attr _ _ (hasattr _ _) => apply keeps_attr_hasattr
  | |- keeps_attr _ _ (setattr _ _ _) => apply keeps_attr_setattr; exact Hne
  | |- keeps_attr _ _ (match ?x with _ => _ end) => destruct x
  end.
Qed.

Lemma keeps_attr_h_flush c k h :
  (h_module h <> c \/ h_name h <> k) -> keeps_attr c k (h_flush_unquantized_ h).
Proof.
  intros Hne. unfold h_flush_unquantized_. apply keeps_attr_bind_h_mod.
  apply keeps_attr_delattr. exact Hne.
Qed.

Lemma keeps_wf_h_unquantize h : keeps_wf (h_unquantize_ h).
Proof. unfold h_unquantize_, h_unquantized_value, h_q8, h_scale, h_mean. keeps_tac. Qed.

Lemma keeps_wf_h_flush h : keeps_wf (h_flush_unquantized_ h).
Proof. unfold h_flush_unquantized_. keeps_tac. Qed.

Lemma hkey_ne c k h : (c, k) <> hkey h -> h_module h <> c \/ h_name h <> k.
Proof.
  intros Hne. destruct (decide (h_module h = c)) as [<-|Hc]; [right|by left].
  intros <-. apply Hne. done.
Qed.

Lemma triple_key_ne h1 h2 w s t :
  attr (h_module h1) (h_name h1) s = Some None -> triple_decodes h2 w s ->
  In t triple_suffixes -> (h_module h2, h_name h2 +:+ t) <> hkey h1.
Proof.
  intros Ha (q8 & sc & mu & H1 & H2 & H3 & _) Ht E. unfold hkey in E. injection E as E1 E2.
  rewrite <- E1, <- E2 in Ha. simpl in Ht. destruct Ht as [<-|[<-|[<-|[]]]]; congruence.
Qed.

Lemma unquantize_step h w s :
  attr (h_module h) (h_name h) s = Some None -> triple_decodes h w s ->
  exists s', h_unquantize_ h s = (s', inr tt) /\ attr (h_module h) (h_name h) s' = Some (Some w).
Proof.
  intros Ha Ht. destruct (attr_alive _ _ _ _ Ha) as [mc Hm].
  unfold h_unquantize_. rewrite (mbind_inr _ _ _ _ _ (h_mod_ok _ _ _ Hm)). cbn beta.
  rewrite (mbind_inr _ _ _ _ _ (hasattr_absent _ _ _ Ha)). cbn beta iota.
  rewrite (mbind_inr _ _ _ _ _ (h_unquantized_value_ok _ _ _ Ht)). cbn beta.
  rewrite (mbind_inr _ _ _ _ _ (h_mod_ok _ _ _ Hm)). cbn beta.
  destruct (setattr_ok (h_module h) (h_name h) w s mc Hm) as [s' Hs'].
  exists s'. split; [exact Hs'|]. exact (setattr_attr_eq _ _ _ _ _ _ Hs').
Qed.

Lemma flush_step h w s :
  module_wf s -> attr (h_module h) (h_name h) s = Some (Some w) ->
  exists s', h_flush_unquantized_ h s = (s', inr tt) /\ attr (h_module h) (h_name h) s' = Some None.
Proof.
  intros Hwf Ha. destruct (attr_alive _ _ _ _ Ha) as [mc Hm].
  unfold h_flush_unquantized_. rewrite (mbind_inr _ _ _ _ _ (h_mod_ok _ _ _ Hm)). cbn beta.
  assert (Hl : dict_lookup (h_name h) (m_params mc) = Some w).
  { unfold attr in Ha. rewrite Hm in Ha. simpl in Ha. by injection Ha. }
  assert (Hd : exists s', delattr (h_module h) (h_name h) s = (s', inr tt)).
  { unfold delattr, mbind, get_module. rewrite Hm, Hl. by eexists. }
  destruct Hd as [s' Hs']. exists s'. split; [exact Hs'|].
  apply (delattr_attr_eq _ _ _ _ _ (fun m0 Hm0 => Hwf _ m0 Hm0) Hs').
Qed.

Lemma pre_hook_spec ps s :
  module_wf s -> NoDup (map hkey ps) ->
  (forall h, h ∈ ps -> attr (h_module h) (h_name h) s = Some None) ->
  (forall h, h ∈ ps -> exists w, triple_decodes h w s) ->
  exists s1, pre_hook ps s = (s1, inr tt) /\ module_wf s1 /\
    (forall k, mod_shape (st_modules s1 !! k) = mod_shape (st_modules s !! k)) /\
    (forall c k, (forall h, h ∈ ps -> (c, k) <> hkey h) -> attr c k s1 = attr c k s) /\
    (forall h w, h ∈ ps -> triple_decodes h w s -> attr (h_module h) (h_name h) s1 = Some (Some w)).
Proof.
  unfold pre_hook. revert s. induction ps as [|h ps IH]; intros s Hwf Hnd Hab Htr.
  { exists s. split; [done|]. split; [done|]. split; [done|]. split; [done|].
    intros h w Hh. inversion Hh. }
  simpl in Hnd. apply NoDup_cons in Hnd as [Hn Hnd].
  assert (Hh : h ∈ h :: ps) by left.
  destruct (Htr h Hh) as [w0 Hw0].
  destruct (unquantize_step h w0 s (Hab h Hh) Hw0) as (s' & Hs' & Ha').
  assert (Hfr' : forall c k, (c, k) <> hkey h -> attr c k s' = attr c k s).
  { intros c k Hck. exact (keeps_attr_h_unquantize c k h (hkey_ne _ _ _ Hck) _ _ _ Hs'). }
  assert (Hwf' : module_wf s') by exact (keeps_wf_h_unquantize h _ _ _ Hwf Hs').
  destruct (frame_h_unquantize h _ _ _ Hs') as (_ & _ & _ & Hsh').
  assert (Hkn : forall h', h' ∈ ps -> hkey h' <> hkey h).
  { intros h' Hh' E. apply Hn. rewrite <- E. apply list_elem_of_In, in_map, list_elem_of_In, Hh'. }
  destruct (IH s' Hwf' Hnd) as (s1 & Hrun & Hwf1 & Hsh1 & Hfr1 & Hv1).
  { intros h' Hh'. rewrite Hfr' by (exact (Hkn h' Hh')). apply Hab. by right. }
  { intros h' Hh'. destruct (Htr h' (list_elem_of_further _ _ _ Hh')) as [w' Hw']. exists w'.
    apply (triple_decodes_keep _ _ s); [|exact Hw'].
    intros t Ht. apply Hfr'. exact (triple_key_ne h h' w' s t (Hab h Hh) Hw' Ht). }
  exists s1. split; [simpl; rewrite (mbind_inr _ _ _ _ _ Hs'); exact Hrun|].
  split; [exact Hwf1|]. split; [intros k; by rewrite Hsh1, Hsh'|]. split.
  - intros c k Hck. rewrite Hfr1, Hfr'; [done| |].
    + apply Hck. left.
    + intros h' Hh'. apply Hck. by right.
  - intros h'' w Hh'' Hw. apply elem_of_cons in Hh'' as [->|Hh''].
    + rewrite Hfr1; [rewrite Ha'; f_equal; f_equal; exact (triple_decodes_det _ _ _ _ Hw0 Hw)|].
      intros h' Hh' E. exact (Hkn h' Hh' (eq_sym E)).
    + apply Hv1; [exact Hh''|]. apply (triple_decodes_keep _ _ s); [|exact Hw].
      intros t Ht. apply Hfr'. exact (triple_key_ne h h'' w s t (Hab h Hh) Hw Ht).
Qed.

Lemma post_hook_spec ps s :
  module_wf s -> NoDup (map hkey ps) ->
  (forall h, h ∈ ps -> exists w, attr (h_module h) (h_name h) s = Some (Some w)) ->
  exists s1, post_hook ps s = (s1, inr tt) /\
    (forall c k, (forall h, h ∈ ps -> (c, k) <> hkey h) -> attr c k s1 = attr c k s) /\
    (forall h, h ∈ ps -> attr (h_module h) (h_name h) s1 = Some None).
Proof.
  unfold post_hook. revert s. induction ps as [|h ps IH]; intros s Hwf Hnd Hpr.
  { exists s. split; [done|]. split; [done|]. intros h Hh. inversion Hh. }
  simpl in Hnd. apply NoDup_cons in Hnd as [Hn Hnd].
  assert (Hh : h ∈ h :: ps) by left.
  destruct (Hpr h Hh) as [w0 Hw0].
  destruct (flush_step h w0 s Hwf Hw0) as (s' & Hs' & Ha').
  assert (Hfr' : forall c k, (c, k) <> hkey h -> attr c k s' = attr c k s).
  { intros c k Hck. exact (keeps_attr_h_flush c k h (hkey_ne _ _ _ Hck) _ _ _ Hs'). }
  assert (Hwf' : module_wf s') by exact (keeps_wf_h_flush h _ _ _ Hwf Hs').
  assert (Hkn : forall h', h' ∈ ps -> hkey h' <> hkey h).
  { intros h' Hh' E. apply Hn. rewrite <- E. apply list_elem_of_In, in_map, list_elem_of_In, Hh'. }
  destruct (IH s' Hwf' Hnd) as (s1 & Hrun & Hfr1 & Hv1).
  { intros h' Hh'. rewrite Hfr' by (exact (Hkn h' Hh')). apply Hpr. by right. }
  exists s1. split; [simpl; rewrite (mbind_inr _ _ _ _ _ Hs'); exact Hrun|]. split.
  - intros c k Hck. rewrite Hfr1, Hfr'; [done| |].
    + apply Hck. left.
    + intros h' Hh'. apply Hck. by right.
  - intros h'' Hh''. apply elem_of_cons in Hh'' as [->|Hh''].
    + rewrite Hfr1; [exact Ha'|]. intros h' Hh' E. exact (Hkn h' Hh' (eq_sym E)).
    + exact (Hv1 h'' Hh'').
Qed.

Lemma get_module_ok id s m : st_modules s !! id = Some m -> get_module id s = (s, inr m).
Proof. intros Hm. unfold get_module. by rewrite Hm. Qed.

Lemma attr_params s s' c k :
  m_params <$> st_modules s' !! c = m_params <$> st_modules s !! c -> attr c k s' = attr c k s.
Proof.
  unfold attr. destruct (st_modules s' !! c), (st_modules s !! c); simpl; intros E;
    try discriminate; [|done]. injection E as E. by rewrite E.
Qed.

Lemma module_wf_params s s' :
  (forall c, m_params <$> st_modules s' !! c = m_params <$> st_modules s !! c) ->
  module_wf s -> module_wf s'.
Proof.
  intros Hp Hwf k mk Hk. specialize (Hp k). rewrite Hk in Hp.
  destruct (st_modules s !! k) as [m|] eqn:Hm; simpl in Hp; [|discriminate].
  injection Hp as ->. exact (Hwf k m Hm).
Qed.

(** C3 (counterexample): after [S0] is orchestrated, its weight [w] is in
    quantized form; an invocation of module 0 whose forward raises is over
    with the exception, and the plain [w], reconstructed from the triple,
    is still on the module next to [w_q8]. *)
Lemma call_module_raise_keeps_plain :
  let s1 := fst (quantize_module_int8_ 0 0 256 S0) in
  let s2 := fst (call_module (mthrow ForwardError) 0 s1) in
  attr 0 "w" s1 = Some None /\
  snd (call_module (mthrow ForwardError) 0 s1) = inl ForwardError /\
  attr 0 "w" s2 = Some (Some (mkTensor 1 2 [[0 # 65025; 65025 # 65025]] Float32 0)) /\
  (exists q8, attr 0 "w_q8" s2 = Some (Some q8)).
Proof.
  vm_compute. split; [reflexivity|]. split; [reflexivity|]. split; [reflexivity|].
  eexists; reflexivity.
Qed.

(** C3 (amended): let the hooks of [root] hold the handle list [ps] of
    one orchestration, on distinct attributes, each with its plain
    attribute absent and its triple present and decodable.  Invoking
    [root] runs the pre-hook, which puts back every weight, decoded from
    its triple; if [forward] then returns without touching parameters or
    the hooks of [root], the post-hook removes every plain attribute
    again and the triples stay; if [forward] raises, the post-hook does
    not run and the decoded weights stay on their modules. *)
Theorem call_module_hooks (forward : M unit) (root : nat) (ps : list Handle)
    (s : State) (m : Module) :
  module_wf s ->
  st_modules s !! root = Some m -> m_pre_hooks m = [ps] -> m_post_hooks m = [ps] ->
  NoDup (map hkey ps) ->
  (forall h, h ∈ ps -> attr (h_module h) (h_name h) s = Some None) ->
  (forall h, h ∈ ps -> exists w, triple_decodes h w s) ->
  exists s1,
    mfor (m_pre_hooks m) pre_hook s = (s1, inr tt) /\
    (forall h w, h ∈ ps -> triple_decodes h w s ->
       attr (h_module h) (h_name h) s1 = Some (Some w) /\ triple_decodes h w s1) /\
    (forall s2, forward s1 = (s2, inr tt) ->
       (forall c, m_params <$> st_modules s2 !! c = m_params <$> st_modules s1 !! c) ->
       mod_shape (st_modules s2 !! root) = mod_shape (st_modules s1 !! root) ->
       exists s3, call_module forward root s = (s3, inr tt) /\
         forall h w, h ∈ ps -> triple_decodes h w s ->
           attr (h_module h) (h_name h) s3 = Some None /\ triple_decodes h w s3) /\
    (forall s2 e, forward s1 = (s2, inl e) ->
       (forall c, m_params <$> st_modules s2 !! c = m_params <$> st_modules s1 !! c) ->
       call_module forward root s = (s2, inl e) /\
       forall h w, h ∈ ps -> triple_decodes h w s ->
         attr (h_module h) (h_name h) s2 = Some (Some w)).
Proof.
  intros Hwf Hm Hpre Hpost Hnd Hab Htr.
  destruct (pre_hook_spec ps s Hwf Hnd Hab Htr) as (s1 & Hrun & Hwf1 & Hsh1 & Hfr1 & Hv1).
  assert (Hkeep1 : forall h w, h ∈ ps -> triple_decodes h w s -> triple_decodes h w s1).
  { intros h w Hh Hw. apply (triple_decodes_keep _ _ s); [|exact Hw].
    intros t Ht. apply Hfr1. intros h' Hh'. exact (triple_key_ne h' h w s t (Hab h' Hh') Hw Ht). }
  assert (Hmfor : mfor (m_pre_hooks m) pre_hook s = (s1, inr tt)).
  { rewrite Hpre. cbn [mfor]. rewrite (mbind_inr _ _ _ _ _ Hrun). reflexivity. }
  assert (Hcall : forall r, forward s1 = r ->
            call_module forward root s = mbind forward (fun _ => let* m := get_module root in
                                                     mfor (m_post_hooks m) post_hook) s1).
  { intros r _. unfold call_module. rewrite (mbind_inr _ _ _ _ _ (get_module_ok _ _ _ Hm)). cbn beta.
    rewrite (mbind_inr _ _ _ _ _ Hmfor). reflexivity. }
  exists s1. split; [exact Hmfor|]. split.
  { intros h w Hh Hw. split; [exact (Hv1 h w Hh Hw)|exact (Hkeep1 h w Hh Hw)]. }
  split.
  - intros s2 Hf Hpar Hsh.
    assert (Hwf2 : module_wf s2) by exact (module_wf_params _ _ Hpar Hwf1).
    assert (Hm2 : exists m2, st_modules s2 !! root = Some m2 /\ m_post_hooks m2 = [ps]).
    { rewrite Hsh1, Hm in Hsh. unfold mod_shape in Hsh.
      destruct (st_modules s2 !! root) as [m2|]; simpl in Hsh; [|discriminate].
      injection Hsh as _ _ Hp2. exists m2. by rewrite Hp2, Hpost. }
    destruct Hm2 as (m2 & Hm2 & Hp2).
    destruct (post_hook_spec ps s2 Hwf2 Hnd) as (s3 & Hrun3 & Hfr3 & Hv3).
    { intros h Hh. destruct (Htr h Hh) as [w Hw]. exists w.
      rewrite (attr_params s1 s2) by apply Hpar. exact (Hv1 h w Hh Hw). }
    exists s3. split.
    + rewrite (Hcall _ Hf), (mbind_inr _ _ _ _ _ Hf). cbn beta.
      rewrite (mbind_inr _ _ _ _ _ (get_module_ok _ _ _ Hm2)), Hp2. cbn [mfor].
      rewrite (mbind_inr _ _ _ _ _ Hrun3). reflexivity.
    + intros h w Hh Hw. split; [exact (Hv3 h Hh)|].
      apply (triple_decodes_keep _ _ s1); [|exact (Hkeep1 h w Hh Hw)].
      intros t Ht. rewrite Hfr3; [apply attr_params, Hpar|].
      intros h' Hh'. exact (triple_key_ne h' h w s t (Hab h' Hh') Hw Ht).
  - intros s2 e Hf Hpar. split.
    + rewrite (Hcall _ Hf). exact (mbind_inl _ _ _ _ _ Hf).
    + intros h w Hh Hw. rewrite (attr_params s1 s2) by apply Hpar. exact (Hv1 h w Hh Hw).
Qed.

(** ** Concrete instances *)

Lemma module_wf_check s :
  bool_decide (map_Forall (fun _ m => NoDup (map fst (m_params m))) (st_modules s)) = true ->
  module_wf s.
Proof.
  intros H. apply bool_decide_eq_true in H. intros k m Hk. exact (map_Forall_lookup_1 _ _ _ _ H Hk).
Qed.


Lemma quantize_module_second_call_noop_witness :
  snd (quantize_module_int8_ 0 0 256 S0) = inr (Some 0%nat) /\
  quantize_module_int8_ 0 1 128 S0q = (S0q, inr None).
Proof.
  split; [vm_compute; reflexivity|].
  apply (quantize_module_second_call_noop 0 0 256 S0 S0q (Some 0%nat)).
  vm_compute. reflexivity.
Defined.

Lemma handle_ops_module_gone_witness :
  st_modules S0 !! h_module Hgone = None /\
  h_mod Hgone S0 = (S0, inl ModuleGone) /\
  h_quantize_ 256 Hgone S0 = (S0, inl ModuleGone) /\
  h_unquantize_ Hgone S0 = (S0, inl ModuleGone) /\
  h_flush_unquantized_ Hgone S0 = (S0, inl ModuleGone) /\
  h_unquantized_value Hgone S0 = (S0, inl ModuleGone) /\
  h_dtype Hgone S0 = (S0, inl ModuleGone) /\
  h_device Hgone S0 = (S0, inl ModuleGone) /\
  h_mean Hgone S0 = (S0, inl ModuleGone) /\
  h_scale Hgone S0 = (S0, inl ModuleGone) /\
  h_q8 Hgone S0 = (S0, inl ModuleGone).
Proof.
  assert (Hn : st_modules S0 !! h_module Hgone = None) by (vm_compute; reflexivity).
  split; [exact Hn|]. exact (handle_ops_module_gone Hgone S0 256 Hn).
Defined.

Lemma get_size_dtype_device_cases_witness :
  st_modules S0q !! 0%nat = Some M0q /\
  dict_lookup "w" (m_params M0q) = None /\
  (forall t, dict_lookup "w" (m_params M0q) = Some t ->
     get_size_dtype_device 0 "w" S0q = (S0q, inr (t_size t, t_dtype t, t_device t))) /\
  (dict_lookup "w" (m_params M0q) = None ->
     forall ps h, st_params_registry S0q !! 0%nat = Some ps -> dict_lookup "w" ps = Some h ->
     get_size_dtype_device 0 "w" S0q =
       (let* dt := h_dtype h in let* dev := h_device h in mret (h_size h, dt, dev)) S0q) /\
  (dict_lookup "w" (m_params M0q) = None ->
     (forall ps, st_params_registry S0q !! 0%nat = Some ps -> dict_lookup "w" ps = None) ->
     get_size_dtype_device 0 "w" S0q = (S0q, inl AttributeError)).
Proof.
  assert (Hm : st_modules S0q !! 0%nat = Some M0q) by (vm_compute; reflexivity).
  split; [exact Hm|]. split; [vm_compute; reflexivity|].
  exact (get_size_dtype_device_cases 0 "w" S0q M0q Hm).
Defined.




Lemma call_module_hooks_witness :
  exists s1,
    mfor (m_pre_hooks M0q) pre_hook S0q = (s1, inr tt) /\
    (forall h w, h ∈ [H0w] -> triple_decodes h w S0q ->
       attr (h_module h) (h_name h) s1 = Some (Some w) /\ triple_decodes h w s1) /\
    (forall s2, mret tt s1 = (s2, inr tt) ->
       (forall c, m_params <$> st_modules s2 !! c = m_params <$> st_modules s1 !! c) ->
       mod_shape (st_modules s2 !! 0%nat) = mod_shape (st_modules s1 !! 0%nat) ->
       exists s3, call_module (mret tt) 0 S0q = (s3, inr tt) /\
         forall h w, h ∈ [H0w] -> triple_decodes h w S0q ->
           attr (h_module h) (h_name h) s3 = Some None /\ triple_decodes h w s3) /\
    (forall s2 e, mret tt s1 = (s2, inl e) ->
       (forall c, m_params <$> st_modules s2 !! c = m_params <$> st_modules s1 !! c) ->
       call_module (mret tt) 0 S0q = (s2, inl e) /\
       forall h w, h ∈ [H0w] -> triple_decodes h w S0q ->
         attr (h_module h) (h_name h) s2 = Some (Some w)).
Proof.
  apply (call_module_hooks (mret tt) 0 [H0w] S0q M0q).
  - apply module_wf_check. vm_compute. reflexivity.
  - vm_compute. reflexivity.
  - vm_compute. reflexivity.
  - vm_compute. reflexivity.
  - apply NoDup_singleton.
  - intros h Hh. apply list_elem_of_singleton in Hh. subst h. vm_compute. reflexivity.
  - intros h Hh. apply list_elem_of_singleton in Hh. subst h.
    eexists. eexists _, _, _.
    split; [vm_compute; reflexivity|]. split; [vm_compute; reflexivity|].
    split; [vm_compute; reflexivity|]. vm_compute. reflexivity.
Defined.

(* ------------------------------------------------------------------ *)
(** ** Further properties of the code *)

Lemma attr_setattr_other c k id name t s s' u :
  setattr id name t s = (s', u) -> (c, k) <> (id, name) -> attr c k s' = attr c k s.
Proof.
  intros H Hne. apply (keeps_attr_setattr c k id name t) with (r := u); [|exact H].
  destruct (decide (c = id)) as [->|Hc]; [right; congruence|by left].
Qed.

Lemma h_unquantize_present h s s' :
  h_unquantize_ h s = (s', inr tt) -> exists w, attr (h_module h) (h_name h) s' = Some (Some w).
Proof.
  unfold h_unquantize_. intros H.
  apply mbind_inv in H as (s1 & m1 & Hm1 & H). apply h_mod_inv in Hm1 as [-> ->].
  apply mbind_inv in H as (s2 & b & Hb & H).
  unfold hasattr, mbind, get_module in Hb.
  destruct (st_modules s !! h_module h) as [mc|] eqn:Hm; simpl in Hb; [|discriminate].
  injection Hb as <- <-.
  destruct (dict_lookup (h_name h) (m_params mc)) as [w|] eqn:Hl.
  - injection H as <-. exists w. unfold attr. by rewrite Hm; simpl; rewrite Hl.
  - apply mbind_inv in H as (s3 & w & _ & H).
    apply mbind_inv in H as (s4 & m4 & Hm4 & H). apply h_mod_inv in Hm4 as [-> ->].
    exists w. exact (setattr_attr_eq _ _ _ _ _ _ H).
Qed.

Lemma h_unquantize_present_noop h s w :
  attr (h_module h) (h_name h) s = Some (Some w) -> h_unquantize_ h s = (s, inr tt).
Proof.
  intros Ha. destruct (attr_alive _ _ _ _ Ha) as [mc Hm].
  unfold h_unquantize_. rewrite (mbind_inr _ _ _ _ _ (h_mod_ok _ _ _ Hm)). cbn beta.
  unfold attr in Ha. rewrite Hm in Ha. simpl in Ha. injection Ha as Hl.
  unfold mbind at 1, hasattr, mbind, get_module. rewrite Hm. simpl. by rewrite Hl.
Qed.

Lemma h_unquantize_keeps_present h h' s s' r w :
  attr (h_module h) (h_name h) s = Some (Some w) -> h_unquantize_ h' s = (s', r) ->
  exists w', attr (h_module h) (h_name h) s' = Some (Some w').
Proof.
  intros Ha H. destruct (decide (hkey h = hkey h')) as [E|Hne].
  - unfold hkey in E. injection E as E1 E2. rewrite E1, E2 in Ha.
    rewrite (h_unquantize_present_noop _ _ _ Ha) in H. injection H as <- _.
    exists w. rewrite E1, E2. exact Ha.
  - exists w. rewrite (keeps_attr_h_unquantize _ _ h' (hkey_ne (h_module h) (h_name h) h' Hne) _ _ _ H).
    exact Ha.
Qed.

Lemma pre_hook_keeps_present ps h s s' r w :
  attr (h_module h) (h_name h) s = Some (Some w) -> pre_hook ps s = (s', r) ->
  exists w', attr (h_module h) (h_name h) s' = Some (Some w').
Proof.
  unfold pre_hook. revert s w. induction ps as [|h0 ps IH]; intros s w Ha H; simpl in H.
  - injection H as <- _. by exists w.
  - unfold mbind in H. destruct (h_unquantize_ h0 s) as [s1 [e|[]]] eqn:E.
    + injection H as <- _. exact (h_unquantize_keeps_present _ _ _ _ _ _ Ha E).
    + destruct (h_unquantize_keeps_present _ _ _ _ _ _ Ha E) as [w1 Hw1].
      exact (IH _ _ Hw1 H).
Qed.

(** X4: after the pre-hook has succeeded, the plain attribute of each of
    its handles is present, and running the pre-hook again changes nothing. *)
Theorem pre_hook_idempotent (ps : list Handle) (s s1 : State) :
  pre_hook ps s = (s1, inr tt) ->
  (forall h, h ∈ ps -> exists w, attr (h_module h) (h_name h) s1 = Some (Some w)) /\
  pre_hook ps s1 = (s1, inr tt).
Proof.
  unfold pre_hook. revert s. induction ps as [|h ps IH]; intros s H; simpl in H.
  { injection H as <-. split; [intros h Hh; inversion Hh|reflexivity]. }
  apply mbind_inv in H as (s2 & [] & H1 & H).
  destruct (IH _ H) as [Hp Hrun].
  destruct (h_unquantize_present _ _ _ H1) as [w Hw].
  destruct (pre_hook_keeps_present ps h s2 s1 (inr tt) w Hw H) as [w1 Hw1].
  split.
  - intros h' Hh'. apply elem_of_cons in Hh' as [->|Hh']; [by exists w1|exact (Hp h' Hh')].
  - simpl. rewrite (mbind_inr _ _ _ _ _ (h_unquantize_present_noop _ _ _ Hw1)). exact Hrun.
Qed.

(** ** Flushing *)

Lemma h_flush_absent_raises h s :
  attr (h_module h) (h_name h) s = Some None -> h_flush_unquantized_ h s = (s, inl AttributeError).
Proof.
  intros Ha. destruct (attr_alive _ _ _ _ Ha) as [mc Hm].
  unfold h_flush_unquantized_. rewrite (mbind_inr _ _ _ _ _ (h_mod_ok _ _ _ Hm)). cbn beta.
  unfold attr in Ha. rewrite Hm in Ha. simpl in Ha. injection Ha as Hl.
  unfold delattr, mbind, get_module. rewrite Hm. simpl. by rewrite Hl.
Qed.

Lemma h_flush_absent h s s' :
  module_wf s -> h_flush_unquantized_ h s = (s', inr tt) ->
  attr (h_module h) (h_name h) s' = Some None /\ module_wf s'.
Proof.
  intros Hwf H. split; [|exact (keeps_wf_h_flush h _ _ _ Hwf H)].
  unfold h_flush_unquantized_ in H.
  apply mbind_inv in H as (s1 & m1 & Hm1 & H). apply h_mod_inv in Hm1 as [-> ->].
  exact (delattr_attr_eq _ _ _ _ _ (fun m0 Hm0 => Hwf _ m0 Hm0) H).
Qed.

Lemma h_flush_keeps_absent h h' s s' :
  attr (h_module h) (h_name h) s = Some None -> h_flush_unquantized_ h' s = (s', inr tt) ->
  attr (h_module h) (h_name h) s' = Some None.
Proof.
  intros Ha H. destruct (decide (hkey h = hkey h')) as [E|Hne].
  - unfold hkey in E. injection E as E1 E2. rewrite E1, E2 in Ha.
    rewrite (h_flush_absent_raises _ _ Ha) in H. discriminate.
  - rewrite (keeps_attr_h_flush _ _ h' (hkey_ne (h_module h) (h_name h) h' Hne) _ _ _ H). exact Ha.
Qed.

Lemma post_hook_keeps_absent ps h s s' :
  attr (h_module h) (h_name h) s = Some None -> post_hook ps s = (s', inr tt) ->
  attr (h_module h) (h_name h) s' = Some None.
Proof.
  unfold post_hook. revert s. induction ps as [|h0 ps IH]; intros s Ha H; simpl in H.
  - by injection H as <-.
  - apply mbind_inv in H as (s1 & [] & H1 & H).
    exact (IH _ (h_flush_keeps_absent _ _ _ _ Ha H1) H).
Qed.

(** X5: After a successful post-hook every plain attribute of its handles is
    gone, and running the post-hook again raises [AttributeError]. *)
Theorem post_hook_twice_raises (ps : list Handle) (s s1 : State) :
  module_wf s -> post_hook ps s = (s1, inr tt) ->
  (forall h, h ∈ ps -> attr (h_module h) (h_name h) s1 = Some None) /\
  (ps <> [] -> post_hook ps s1 = (s1, inl AttributeError)).
Proof.
  intros Hwf H.
  assert (Habs : forall h, h ∈ ps -> attr (h_module h) (h_name h) s1 = Some None).
  { revert s Hwf H. unfold post_hook. induction ps as [|h ps IH]; intros s Hwf H h' Hh'; [inversion Hh'|].
    simpl in H. apply mbind_inv in H as (s2 & [] & H1 & H).
    destruct (h_flush_absent _ _ _ Hwf H1) as [Ha Hwf2].
    apply elem_of_cons in Hh' as [->|Hh'].
    - exact (post_hook_keeps_absent _ _ _ _ Ha H).
    - exact (IH _ Hwf2 H h' Hh'). }
  split; [exact Habs|]. intros Hne. destruct ps as [|h ps]; [done|].
  unfold post_hook. simpl.
  rewrite (mbind_inl _ _ _ _ _ (h_flush_absent_raises _ _ (Habs h (list_elem_of_here _ _)))).
  reflexivity.
Qed.


Lemma readonly_ret {A} (a : A) : readonly (mret a).
Proof. intros s s' r H. by injection H as <-. Qed.

Lemma readonly_throw {A} e : readonly (@mthrow A e).
Proof. intros s s' r H. by injection H as <-. Qed.

Lemma readonly_bind {A B} (op : M A) (f : A -> M B) :
  readonly op -> (forall a, readonly (f a)) -> readonly (mbind op f).
Proof.
  intros Hop Hf s s' r H. unfold mbind in H. destruct (op s) as [s1 [e|a]] eqn:E.
  - injection H as <- _. exact (Hop _ _ _ E).
  - rewrite (Hf a _ _ _ H). exact (Hop _ _ _ E).
Qed.

Lemma readonly_get_module k : readonly (get_module k).
Proof. intros s s' r H. unfold get_module in H. destruct (st_modules s !! k); by injection H as <-. Qed.

Lemma readonly_h_mod h : readonly (h_mod h).
Proof. intros s s' r H. unfold h_mod in H. destruct (st_modules s !! h_module h); by injection H as <-. Qed.

Lemma readonly_getattr c k : readonly (getattr c k).
Proof.
  apply readonly_bind; [apply readonly_get_module|]. intros m.
  destruct (dict_lookup k (m_params m)); [apply readonly_ret|apply readonly_throw].
Qed.

Lemma readonly_h_unquantized_value h : readonly (h_unquantized_value h).
Proof.
  unfold h_unquantized_value, h_q8, h_scale, h_mean.
  assert (Hg : forall k, readonly (let* m := h_mod h in getattr m k)).
  { intros k. apply readonly_bind; [apply readonly_h_mod|intros; apply readonly_getattr]. }
  apply readonly_bind; [apply Hg|intros q8].
  apply readonly_bind; [apply Hg|intros sc].
  apply readonly_bind; [apply Hg|intros mu].
  destruct (_unquantize_weight_int8 _ _ _ _); [apply readonly_ret|apply readonly_throw].
Qed.

Lemma dict_del_set_fresh {V} (k : string) (v : V) d :
  dict_lookup k d = None -> dict_del k (dict_set k v d) = d.
Proof.
  induction d as [|[k0 v0] d IH]; simpl; [by rewrite decide_True|].
  case_decide; [discriminate|]. intros Hl. simpl. rewrite decide_False by done. f_equal. auto.
Qed.

(** X6: on a weight whose plain attribute is absent, a successful
    [unquantize_] followed by [flush_unquantized_] gives back the state
    as it was. *)
Theorem unquantize_flush_roundtrip (h : Handle) (s s1 : State) :
  attr (h_module h) (h_name h) s = Some None ->
  h_unquantize_ h s = (s1, inr tt) ->
  h_flush_unquantized_ h s1 = (s, inr tt).
Proof.
  intros Ha H. destruct (attr_alive _ _ _ _ Ha) as [mc Hm].
  assert (Hl : dict_lookup (h_name h) (m_params mc) = None).
  { unfold attr in Ha. rewrite Hm in Ha. simpl in Ha. by injection Ha. }
  unfold h_unquantize_ in H. rewrite (mbind_inr _ _ _ _ _ (h_mod_ok _ _ _ Hm)) in H. cbn beta in H.
  rewrite (mbind_inr _ _ _ _ _ (hasattr_absent _ _ _ Ha)) in H. cbn beta iota in H.
  apply mbind_inv in H as (s2 & w & Hv & H).
  rewrite (readonly_h_unquantized_value _ _ _ _ Hv) in H.
  rewrite (mbind_inr _ _ _ _ _ (h_mod_ok _ _ _ Hm)) in H. cbn beta in H.
  unfold setattr, mbind, get_module, put_module in H. rewrite Hm in H. injection H as <-.
  unfold h_flush_unquantized_, h_mod, mbind. cbn [st_modules]. rewrite lookup_insert_eq.
  unfold delattr, mbind, get_module, put_module. cbn [st_modules st_params_registry st_quantized_registry m_params m_children m_pre_hooks m_post_hooks].
  rewrite lookup_insert_eq. cbn [m_params m_children m_pre_hooks m_post_hooks].
  rewrite dict_lookup_set_eq, (dict_del_set_fresh _ _ _ Hl).
  cbn [st_modules st_params_registry st_quantized_registry]. rewrite insert_insert.
  destruct mc as [p ch pre post]. rewrite decide_True by reflexivity.
  cbn [m_params m_children m_pre_hooks m_post_hooks]. rewrite (insert_id _ _ _ Hm). destruct s; reflexivity.
Qed.

Lemma append_nonempty_ne (X t : string) : t <> ""%string -> X +:+ t <> X.
Proof.
  intros Ht. induction X as [|a X IH]; simpl.
  - exact Ht.
  - intros E. injection E as E. exact (IH E).
Qed.

Lemma dict_set_same {V} (k : string) (v : V) d : dict_lookup k d = Some v -> dict_set k v d = d.
Proof.
  induction d as [|[k' v'] d IH]; simpl; [discriminate|].
  case_decide as E; [subst; intros H; by injection H as ->|].
  intros H. by rewrite (IH H).
Qed.

Lemma setattr_same c k v s : attr c k s = Some (Some v) -> setattr c k v s = (s, inr tt).
Proof.
  intros Ha. destruct (attr_alive _ _ _ _ Ha) as [mc Hm].
  unfold attr in Ha. rewrite Hm in Ha. simpl in Ha. injection Ha as Hl.
  unfold setattr, mbind, get_module, put_module. rewrite Hm. rewrite (dict_set_same _ _ _ Hl).
  destruct mc as [p ch pre post]. cbn [m_params m_children m_pre_hooks m_post_hooks].
  rewrite (insert_id _ _ _ Hm). by destruct s.
Qed.

(** X3: [quantize_] is idempotent: a second call rewrites the triple with the
    values already there, as the plain weight it reads is unchanged. *)
Theorem h_quantize_idempotent (bs : nat) (h : Handle) (s s1 : State) u :
  h_quantize_ bs h s = (s1, inr u) -> h_quantize_ bs h s1 = (s1, inr tt).
Proof.
  intros H. unfold h_quantize_ in *.
  apply mbind_inv in H as (s2 & m & Hm & H). apply h_mod_inv in Hm as [-> ->].
  apply mbind_inv in H as (s3 & w & Hw & H). apply getattr_inv in Hw as [-> Hw].
  destruct (_quantize_weight_int8 w bs) as [[[q8 sc] mu]|] eqn:Hq; [|discriminate].
  apply mbind_inv in H as (s4 & m & Hm & H). apply h_mod_inv in Hm as [-> ->].
  apply mbind_inv in H as (s5 & u1 & H1 & H). 
  apply mbind_inv in H as (s6 & m & Hm & H). apply h_mod_inv in Hm as [-> ->].
  apply mbind_inv in H as (s7 & u2 & H2 & H).
  apply mbind_inv in H as (s8 & m & Hm & H). apply h_mod_inv in Hm as [-> ->].
  set (c := h_module h) in *. set (X := h_name h) in *.
  assert (Hne : forall t, In t triple_suffixes -> (c, X) <> (c, X +:+ t)).
  { intros t Ht E. injection E as E. symmetry in E. revert E. apply append_nonempty_ne.
    unfold triple_suffixes in Ht. simpl in Ht. intuition congruence. }
  assert (Ha : attr c X s1 = Some (Some w)).
  { rewrite (attr_setattr_other _ _ _ _ _ _ _ _ H) by (apply Hne; sfx_tac).
    rewrite (attr_setattr_other _ _ _ _ _ _ _ _ H2) by (apply Hne; sfx_tac).
    rewrite (attr_setattr_other _ _ _ _ _ _ _ _ H1) by (apply Hne; sfx_tac). exact Hw. }
  destruct (attr_alive _ _ _ _ Ha) as [mc Hmc].
  assert (Hmu : attr c (X +:+ "_mean") s1 = Some (Some mu)) by exact (setattr_attr_eq _ _ _ _ _ _ H).
  assert (Hsc : attr c (X +:+ "_scale") s1 = Some (Some sc)).
  { rewrite (attr_setattr_other _ _ _ _ _ _ _ _ H).
    - exact (setattr_attr_eq _ _ _ _ _ _ H2).
    - intros E. injection E as E. revert E. apply triple_names_distinct; sfx_tac. }
  assert (Hq8 : attr c (X +:+ "_q8") s1 = Some (Some q8)).
  { rewrite (attr_setattr_other _ _ _ _ _ _ _ _ H).
    2: { intros E. injection E as E. revert E. apply triple_names_distinct; sfx_tac. }
    rewrite (attr_setattr_other _ _ _ _ _ _ _ _ H2).
    2: { intros E. injection E as E. revert E. apply triple_names_distinct; sfx_tac. }
    exact (setattr_attr_eq _ _ _ _ _ _ H1). }
  rewrite (mbind_inr _ _ _ _ _ (h_mod_ok _ _ _ Hmc)). cbn beta.
  rewrite (mbind_inr _ _ _ _ _ (getattr_present _ _ _ _ Ha)). cbn beta iota. rewrite Hq.
  rewrite (mbind_inr _ _ _ _ _ (h_mod_ok _ _ _ Hmc)). cbn beta.
  rewrite (mbind_inr _ _ _ _ _ (setattr_same _ _ _ _ Hq8)). cbn beta.
  rewrite (mbind_inr _ _ _ _ _ (h_mod_ok _ _ _ Hmc)). cbn beta.
  rewrite (mbind_inr _ _ _ _ _ (setattr_same _ _ _ _ Hsc)). cbn beta.
  rewrite (mbind_inr _ _ _ _ _ (h_mod_ok _ _ _ Hmc)). cbn beta.
  exact (setattr_same _ _ _ _ Hmu).
Qed.

Lemma mfor_keeps {A} (P : State -> Prop) (xs : list A) (f : A -> M unit) :
  (forall y s s' r, P s -> f y s = (s', r) -> P s') ->
  forall s s' r, P s -> mfor xs f s = (s', r) -> P s'.
Proof.
  intros Hf. induction xs as [|x xs IH]; simpl; intros s s' r Hs H.
  - unfold mret in H. by injection H as <- _.
  - unfold mbind in H. destruct (f x s) as [s1 [e|u]] eqn:E.
    + injection H as <- _. exact (Hf _ _ _ _ Hs E).
    + exact (IH _ _ _ (Hf _ _ _ _ Hs E) H).
Qed.

Lemma mfor_raises {A} (P : State -> Prop) (xs : list A) (f : A -> M unit) x :
  (forall y s s' r, P s -> f y s = (s', r) -> P s') ->
  (forall s, P s -> exists s' e, f x s = (s', inl e)) ->
  x ∈ xs -> forall s, P s -> exists s' e, mfor xs f s = (s', inl e).
Proof.
  intros Hf Hx. induction xs as [|y xs IH]; intros Hin s Hs; [by apply elem_of_nil in Hin|].
  simpl. unfold mbind. destruct (f y s) as [s1 [e|u]] eqn:E; [by exists s1, e|].
  apply elem_of_cons in Hin as [->|Hin].
  - destruct (Hx s Hs) as (s' & e & E'). congruence.
  - exact (IH Hin _ (Hf _ _ _ _ Hs E)).
Qed.

Lemma h_unquantize_keeps_dead c h s s' r :
  st_modules s !! c = None -> h_unquantize_ h s = (s', r) -> st_modules s' !! c = None.
Proof.
  intros Hc H. destruct (frame_h_unquantize h _ _ _ H) as (_ & _ & _ & Hs).
  specialize (Hs c). rewrite Hc in Hs. by destruct (st_modules s' !! c).
Qed.

Lemma h_unquantize_dead h s :
  st_modules s !! h_module h = None -> h_unquantize_ h s = (s, inl ModuleGone).
Proof. intros Hc. unfold h_unquantize_, mbind, h_mod. by rewrite Hc. Qed.

(** X12: A module invoked while one of its pre-hooks holds a handle on a
    module that is gone raises before [forward] runs: the outcome is the
    same whatever [forward] is. *)
Theorem call_module_dead_handle (root : nat) (s : State) (m : Module) (ps : list Handle) (h : Handle) :
  st_modules s !! root = Some m -> ps ∈ m_pre_hooks m -> h ∈ ps ->
  st_modules s !! h_module h = None ->
  exists s' e, forall forward, call_module forward root s = (s', inl e).
Proof.
  intros Hm Hps Hh Hd.
  set (P := fun s => st_modules s !! h_module h = None).
  assert (Hstep : forall y s s' r, P s -> h_unquantize_ y s = (s', r) -> P s')
    by (intros y s0 s1 r; apply h_unquantize_keeps_dead).
  destruct (mfor_raises P (m_pre_hooks m) pre_hook ps) with (s := s) as (s' & e & E).
  - intros y s0 s1 r; apply mfor_keeps; exact Hstep.
  - intros s0 Hs0. apply (mfor_raises P ps h_unquantize_ h); [exact Hstep| |exact Hh|exact Hs0].
    intros s1 Hs1. exists s1, ModuleGone. by apply h_unquantize_dead.
  - exact Hps.
  - exact Hd.
  - exists s', e. intros forward. unfold call_module.
    rewrite (mbind_inr _ _ _ _ _ (get_module_ok _ _ _ Hm)). cbn beta.
    unfold mbind at 1. rewrite E. reflexivity.
Qed.

Lemma process_params_handles c min ps params cp s s' params' cp' :
  process_params c min ps params cp s = (s', inr (params', cp')) ->
  let Lc := map (fun p => mkHandle c p.1 (t_size p.2)) (List.filter (large min) ps) in
  params' = params ++ Lc /\ cp' = fold_left (fun d h => dict_set (h_name h) h d) Lc cp.
Proof.
  revert params cp s. induction ps as [|[name w] ps IH]; intros params cp s H; simpl in H.
  - injection H as <- <- <-. simpl. rewrite app_nil_r. done.
  - unfold large at 1; simpl. destruct (Qlt_le_dec (size_mb w) min).
    + exact (IH _ _ _ H).
    + apply mbind_inv in H as (s1 & u1 & _ & H).
      apply mbind_inv in H as (s2 & u2 & _ & H).
      destruct (IH _ _ _ H) as [-> ->]. simpl. rewrite <- app_assoc. done.
Qed.


(** One weight of a module the orchestration visits for the first time:
    it ends in quantized form, and the registry holds the handle built
    for it, [_QuantizedParam(ref(child), name, weight.size())]. *)
Lemma orchestrated_param (root : nat) (min : Q) (bs : nat) (s s' : State)
    (r : option nat) (child : nat) (m : Module) (X : string) (w : Tensor) :
  module_wf s -> root ∉ st_quantized_registry s ->
  quantize_module_int8_ root min bs s = (s', inr r) ->
  child ∈ modules_go (S (size (st_modules s))) s root [] ->
  st_params_registry s !! child = None ->
  st_modules s !! child = Some m ->
  (forall Y t, In t triple_suffixes -> dict_lookup Y (m_params m) <> None ->
     dict_lookup (Y +:+ t) (m_params m) = None) ->
  dict_lookup X (m_params m) = Some w ->
  min <= size_mb w ->
  quantized_form child X w s' /\
  exists cp, st_params_registry s' !! child = Some cp /\
             dict_lookup X cp = Some (mkHandle child X (t_size w)).
Proof.
  intros Hwf Hq H Hc Hreg Hm Hfresh HX Hge.
  destruct (quantize_module_steps _ _ _ _ _ _ Hq H)
    as (params & s1 & mr & Htr & Hmr & Hmods & Hreg' & _ & _).
  destruct (traverse_spec _ _ _ _ _ _ _ (modules_go_nodup _ _ _ _ (NoDup_nil_2)) Htr)
    as (_ & _ & Tc & _ & _).
  destruct (Tc child Hc (not_elem_of_nil _) Hreg)
    as (m' & t1 & t2 & p1 & p2 & cp & Hm' & Ht1 & Hpp & Hcp & Ht2).
  rewrite Hm in Hm'. injection Hm' as <-.
  assert (Hattr : forall k, attr child k s' = attr child k t2).
  { intros k. unfold attr. rewrite Hmods. destruct (decide (child = root)) as [->|Hne].
    - rewrite lookup_insert_eq, <- Ht2, Hmr. done.
    - rewrite lookup_insert_ne by congruence. by rewrite Ht2. }
  assert (Hnd : NoDup (map fst (m_params m))) by exact (Hwf child m Hm).
  assert (HIn : In (X, w) (m_params m)) by exact (dict_lookup_In _ _ _ HX).
  assert (Hnc1 : params_nodup child t1).
  { intros m0 Hm0. rewrite Ht1 in Hm0. by injection Hm0 as <-. }
  assert (Hval : forall Y wY, In (Y, wY) (m_params m) -> attr child Y t1 = Some (Some wY)).
  { intros Y wY HY. unfold attr. rewrite Ht1. simpl. by rewrite (dict_lookup_of_In _ _ _ Hnd HY). }
  assert (Hfr : forall Y wY t, In (Y, wY) (m_params m) -> In t triple_suffixes ->
                  attr child (Y +:+ t) t1 = Some None).
  { intros Y wY t HY Ht. unfold attr. rewrite Ht1. simpl. rewrite Hfresh; [done|done|].
    by rewrite (dict_lookup_of_In _ _ _ Hnd HY). }
  destruct (process_params_attrs child min (m_params m) p1 [] t1 t2 (p2, cp)
              Hnd Hnc1 Hval Hfr Hpp X w HIn) as [Hbig _].
  destruct (process_params_handles _ _ _ _ _ _ _ _ _ Hpp) as [_ HLcp].
  assert (Hl : large min (X, w) = true).
  { unfold large; cbn [snd]. destruct (Qlt_le_dec (size_mb w) min); [lra|done]. }
  split.
  { unfold quantized_form. rewrite !Hattr. exact (Hbig Hl). }
  set (Lc := map (fun p => mkHandle child p.1 (t_size p.2)) (List.filter (large min) (m_params m))) in HLcp.
  assert (HXL : X ∈ map h_name Lc).
  { unfold Lc. rewrite map_map. apply list_elem_of_In, in_map_iff. exists (X, w).
    split; [done|]. by apply filter_In. }
  destruct (fold_dict_set_in Lc [] X HXL) as (h & Hh & HhL & Hhn).
  exists cp. split; [rewrite Hreg'; exact Hcp|]. rewrite HLcp, Hh.
  unfold Lc in HhL. apply list_elem_of_In, in_map_iff in HhL as ([Y wY] & <- & HY).
  apply filter_In in HY as [HY _]. cbn [h_name fst] in Hhn. subst Y.
  rewrite (dict_lookup_of_In _ _ _ Hnd HY) in HX. injection HX as ->. done.
Qed.




Lemma traverse_frame min children seen params s s' r :
  traverse min children seen params s = (s', r) ->
  st_quantized_registry s' = st_quantized_registry s /\
  forall k, mod_shape (st_modules s' !! k) = mod_shape (st_modules s !! k).
Proof.
  revert seen params s. induction children as [|c rest IH]; intros seen params s H; simpl in H.
  { injection H as <- _. done. }
  case_decide; [exact (IH _ _ _ H)|].
  unfold mbind at 1, params_registry_get in H.
  destruct (st_params_registry s !! c) as [hs|]; [exact (IH _ _ _ H)|].
  unfold mbind at 1, named_parameters, mbind, get_module in H.
  destruct (st_modules s !! c) as [m|]; [|by injection H as <- _].
  cbv [mret] in H. unfold mbind in H.
  destruct (process_params c min (m_params m) params [] s) as [s2 [e|[p2 cp]]] eqn:Hpp;
    destruct (frame_process_params _ _ _ _ _ _ _ _ Hpp) as (_ & Fq & _ & Fs).
  - injection H as <- _. done.
  - unfold params_registry_set in H. destruct (IH _ _ _ H) as [Hq Hs]. simpl in Hq, Hs.
    split; [congruence|]. intros k. by rewrite Hs, Fs.
Qed.

(** X10: A call of [quantize_module_int8_] that raises registers no hook on
    any module and leaves the module out of [_quantized_registry]. *)
Theorem quantize_module_raise_no_hooks (root : nat) (min : Q) (bs : nat) (s s' : State) (e : err) :
  quantize_module_int8_ root min bs s = (s', inl e) ->
  st_quantized_registry s' = st_quantized_registry s /\
  forall k, mod_shape (st_modules s' !! k) = mod_shape (st_modules s !! k).
Proof.
  intros H. unfold quantize_module_int8_, mbind at 1, quantized_registry_mem in H.
  destruct (bool_decide (root ∈ st_quantized_registry s)); [discriminate|].
  unfold mbind at 1, modules in H. unfold mbind at 1 in H.
  destruct (traverse min _ [] [] s) as [s1 [e1|params]] eqn:Htr;
    destruct (traverse_frame _ _ _ _ _ _ _ Htr) as [Fq Fs].
  - injection H as <- _. done.
  - unfold mbind, register_hooks, mbind, get_module in H.
    destruct (st_modules s1 !! root); [discriminate|]. injection H as <- _. done.
Qed.

(** X11: In a module the call visits for the first time, with distinct
    parameter names and no parameter already named like the triple of
    another, a weight the orchestration must quantize, with more than
    [256 * 256] elements and a count that is not a multiple of 256,
    makes the call raise: [quantize_] is called with the default block
    size 256 and the slice assignment into the [(256, 256)] buffer fails. *)
Theorem quantize_module_raises_large_unaligned (root : nat) (min : Q) (bs : nat) (s : State)
    (child : nat) (m : Module) (X : string) (w : Tensor) :
  module_wf s -> root ∉ st_quantized_registry s ->
  child ∈ modules_go (S (size (st_modules s))) s root [] ->
  st_params_registry s !! child = None ->
  st_modules s !! child = Some m ->
  (forall Y t, In t triple_suffixes -> dict_lookup Y (m_params m) <> None ->
     dict_lookup (Y +:+ t) (m_params m) = None) ->
  dict_lookup X (m_params m) = Some w ->
  min <= size_mb w ->
  (256 * 256 < numel w)%nat -> (numel w mod 256 <> 0)%nat ->
  exists s' e, quantize_module_int8_ root min bs s = (s', inl e).
Proof.
  intros Hwf Hq Hc Hreg Hm Hfresh HX Hge Hn Hmod.
  destruct (quantize_module_int8_ root min bs s) as [s' [e|r]] eqn:H; [by exists s', e|].
  exfalso.
  destruct (orchestrated_param root min bs s s' r child m X w Hwf Hq H Hc Hreg Hm Hfresh HX Hge)
    as [(_ & q8 & sc & mu & Hqw & _) _].
  revert Hqw. unfold _quantize_weight_int8. rewrite decide_False by lia.
  rewrite decide_True; [discriminate|]. split; [|lia].
  intros E. apply Hmod. rewrite E. apply Nat.Div0.mod_mul.
Qed.

















(** ** Witnesses of the further properties *)

Lemma fresh_one (Y0 : string) (w0 : Tensor) :
  (forall t, In t triple_suffixes -> dict_lookup (Y0 +:+ t) [(Y0, w0)] = None) ->
  forall Y t, In t triple_suffixes -> dict_lookup Y [(Y0, w0)] <> None ->
    dict_lookup (Y +:+ t) [(Y0, w0)] = None.
Proof.
  intros H Y t Ht HY. destruct (decide (Y = Y0)) as [->|Hne]; [exact (H t Ht)|].
  exfalso. apply HY. simpl. by rewrite decide_False.
Qed.



Lemma pre_hook_idempotent_witness :
  pre_hook [H0w] S0q = (fst (pre_hook [H0w] S0q), inr tt) /\
  (forall h, h ∈ [H0w] -> exists w, attr (h_module h) (h_name h) (fst (pre_hook [H0w] S0q)) = Some (Some w)) /\
  pre_hook [H0w] (fst (pre_hook [H0w] S0q)) = (fst (pre_hook [H0w] S0q), inr tt).
Proof.
  assert (H : pre_hook [H0w] S0q = (fst (pre_hook [H0w] S0q), inr tt)) by (vm_compute; reflexivity).
  split; [exact H|]. exact (pre_hook_idempotent [H0w] S0q _ H).
Defined.

Lemma post_hook_twice_raises_witness :
  let s := fst (pre_hook [H0w] S0q) in
  post_hook [H0w] s = (fst (post_hook [H0w] s), inr tt) /\
  (forall h, h ∈ [H0w] -> attr (h_module h) (h_name h) (fst (post_hook [H0w] s)) = Some None) /\
  ([H0w] <> [] -> post_hook [H0w] (fst (post_hook [H0w] s)) = (fst (post_hook [H0w] s), inl AttributeError)).
Proof.
  intros s.
  assert (H : post_hook [H0w] s = (fst (post_hook [H0w] s), inr tt)) by (vm_compute; reflexivity).
  split; [exact H|]. apply (post_hook_twice_raises [H0w] s _); [|exact H].
  apply module_wf_check. vm_compute. reflexivity.
Defined.

Lemma unquantize_flush_roundtrip_witness :
  attr 0 "w" S0q = Some None /\
  h_unquantize_ H0w S0q = (fst (h_unquantize_ H0w S0q), inr tt) /\
  h_flush_unquantized_ H0w (fst (h_unquantize_ H0w S0q)) = (S0q, inr tt).
Proof.
  assert (Ha : attr 0 "w" S0q = Some None) by (vm_compute; reflexivity).
  assert (H : h_unquantize_ H0w S0q = (fst (h_unquantize_ H0w S0q), inr tt)) by (vm_compute; reflexivity).
  split; [exact Ha|]. split; [exact H|]. exact (unquantize_flush_roundtrip H0w S0q _ Ha H).
Defined.

Lemma h_quantize_idempotent_witness :
  h_quantize_ 256 H0w S0 = (fst (h_quantize_ 256 H0w S0), inr tt) /\
  h_quantize_ 256 H0w (fst (h_quantize_ 256 H0w S0)) = (fst (h_quantize_ 256 H0w S0), inr tt).
Proof.
  assert (H : h_quantize_ 256 H0w S0 = (fst (h_quantize_ 256 H0w S0), inr tt)) by (vm_compute; reflexivity).
  split; [exact H|]. exact (h_quantize_idempotent 256 H0w S0 _ tt H).
Defined.

Lemma quantize_module_raise_no_hooks_witness :
  quantize_module_int8_ 0 0 256 Spartial = (fst (quantize_module_int8_ 0 0 256 Spartial), inl TorchError) /\
  st_quantized_registry (fst (quantize_module_int8_ 0 0 256 Spartial)) = st_quantized_registry Spartial /\
  forall k, mod_shape (st_modules (fst (quantize_module_int8_ 0 0 256 Spartial)) !! k) =
            mod_shape (st_modules Spartial !! k).
Proof.
  assert (H : quantize_module_int8_ 0 0 256 Spartial = (fst (quantize_module_int8_ 0 0 256 Spartial), inl TorchError))
    by (vm_compute; reflexivity).
  split; [exact H|]. exact (quantize_module_raise_no_hooks 0 0 256 Spartial _ _ H).
Defined.

Lemma quantize_module_raises_large_unaligned_witness :
  (256 * 256 < numel Wodd)%nat /\ (numel Wodd mod 256 <> 0)%nat /\
  exists s' e, quantize_module_int8_ 0 0 256 Sodd = (s', inl e).
Proof.
  assert (Hn : (256 * 256 < numel Wodd)%nat) by (apply Nat.ltb_lt; vm_compute; reflexivity).
  assert (Hmod : (numel Wodd mod 256 <> 0)%nat) by (apply Nat.eqb_neq; vm_compute; reflexivity).
  split; [exact Hn|]. split; [exact Hmod|].
  apply (quantize_module_raises_large_unaligned 0 0 256 Sodd 0 Modd "w" Wodd).
  - apply module_wf_check. vm_compute. reflexivity.
  - apply (bool_decide_unpack _). vm_compute. reflexivity.
  - apply (bool_decide_unpack _). vm_compute. reflexivity.
  - vm_compute. reflexivity.
  - reflexivity.
  - apply fresh_one. intros t Ht. destruct Ht as [<-|[<-|[<-|[]]]]; vm_compute; reflexivity.
  - reflexivity.
  - vm_compute. discriminate.
  - exact Hn.
  - exact Hmod.
Defined.





Lemma call_module_dead_handle_witness :
  exists s' e, forall forward, call_module forward 0 Sdropped = (s', inl e).
Proof.
  apply (call_module_dead_handle 0 Sdropped M0dropped [mkHandle 1 "w" (1%nat, 2%nat)] (mkHandle 1 "w" (1%nat, 2%nat))).
  - vm_compute. reflexivity.
  - apply list_elem_of_here.
  - apply list_elem_of_here.
  - vm_compute. reflexivity.
Defined.
